(** * db-utils: the MariaDB query helper (src/server/mariadb.server.ts)

    A shallow embedding of the [MariaDB] class: the identifier protector
    [protectFieldName], the WHERE compiler [buildWhere] / [buildWhereParams],
    the chunk planner [getChunk], the statement assemblers ([select], [insert],
    [update], [objectUpdate]) and the thin wrappers over the pooled client
    ([query], [execute], [batch]).

    Conventions of the embedding.
    - A JavaScript string is a [string]: a sequence of bytes, read as the
      UTF-8 encoding of the text.  The backtick, the dot, the question mark,
      ASCII letters, digits, the underscore and ASCII white space are single
      bytes that never occur inside a multi-byte sequence, so the byte-wise
      tests agree with the source's tests on code units; the white space
      beyond ASCII is recognised by its two or three bytes ([spaceWidth]).
    - A JavaScript number is an integer of [Z] (limits, offsets, chunk
      indexes and row ids are integers in every use the class makes of them;
      [Z] is exact where a double is not, above [2^53]).
    - An object used as a record is an ordinary object: an association list
      of its own properties in the order [Object.keys] enumerates them, which
      inherits the members of [Object.prototype] ([getProp], [hasKey]).
    - Asynchronous methods are functions in a state-and-exception monad over
      the [World]: the initialised flag of the pool, the chunk cache and the
      trace of calls made to the pooled client. *)

From Stdlib Require Import ZArith Ascii Lia.
From stdpp Require Import gmap strings list pretty.

Open Scope Z_scope.

(** ** Strings *)

Definition backtick : ascii := "`"%char.
Definition dot : ascii := "."%char.
Definition qmark : ascii := "?"%char.

(** [s.startsWith(c)] and [s.endsWith(c)] for a one-character needle. *)
Definition startsWith (c : ascii) (s : string) : bool :=
  match s with
  | EmptyString => false
  | String a _ => bool_decide (a = c)
  end.

Fixpoint endsWith (c : ascii) (s : string) : bool :=
  match s with
  | EmptyString => false
  | String a EmptyString => bool_decide (a = c)
  | String _ r => endsWith c r
  end.

(** [s.includes(c)] for a one-character needle. *)
Fixpoint includes (c : ascii) (s : string) : bool :=
  match s with
  | EmptyString => false
  | String a r => bool_decide (a = c) || includes c r
  end.

(** [s.includes(needle)] for a string needle. *)
Fixpoint includesStr (needle s : string) : bool :=
  String.prefix needle s ||
  match s with
  | EmptyString => false
  | String _ r => includesStr needle r
  end.

(** [s.split(c)]: the pieces between the occurrences of [c]; never empty. *)
Fixpoint split (c : ascii) (s : string) : list string :=
  match s with
  | EmptyString => [EmptyString]
  | String a r =>
      if bool_decide (a = c) then EmptyString :: split c r
      else match split c r with
           | h :: t => String a h :: t
           | [] => [String a EmptyString]
           end
  end.

(** [l.join(sep)]. *)
Fixpoint join (sep : string) (l : list string) : string :=
  match l with
  | [] => EmptyString
  | [x] => x
  | x :: t => x +:+ sep +:+ join sep t
  end.

Definition lowerChar (a : ascii) : ascii :=
  let n := N_of_ascii a in
  if ((65 <=? n) && (n <=? 90))%N then ascii_of_N (n + 32) else a.

(** [s.toLowerCase()] on ASCII letters. *)
Fixpoint toLowerCase (s : string) : string :=
  match s with
  | EmptyString => EmptyString
  | String a r => String (lowerChar a) (toLowerCase r)
  end.

(** The class [[a-zA-Z0-9_]] (also the word characters of [\b]). *)
Definition isWordChar (a : ascii) : bool :=
  let n := N_of_ascii a in
  (((97 <=? n) && (n <=? 122)) || ((65 <=? n) && (n <=? 90)) ||
   ((48 <=? n) && (n <=? 57)) || (n =? 95))%N.

(** [/[^a-zA-Z0-9_]/.test(s)]. *)
Fixpoint hasNonWordChar (s : string) : bool :=
  match s with
  | EmptyString => false
  | String a r => negb (isWordChar a) || hasNonWordChar r
  end.

(** White space of [\s] and of [trim], ASCII part. *)
Definition isSpace (a : ascii) : bool := Ascii.is_space a.

(** The number of bytes of the white-space character at the head of [s], [0]
    when there is none.  Beyond ASCII, [\s], [trim] and [split(/\s+/)] take
    U+00A0, U+1680, U+2000 to U+200A, U+2028, U+2029, U+202F, U+205F, U+3000
    and U+FEFF for white space: two or three bytes each in UTF-8. *)
Definition spaceWidth (s : string) : nat :=
  match s with
  | EmptyString => 0
  | String a r =>
      if isSpace a then 1
      else
        match r with
        | EmptyString => 0
        | String b r' =>
            let a := N_of_ascii a in
            let b := N_of_ascii b in
            if ((a =? 0xC2) && (b =? 0xA0))%N then 2
            else
              match r' with
              | EmptyString => 0
              | String c _ =>
                  let c := N_of_ascii c in
                  if (((a =? 0xE1) && (b =? 0x9A) && (c =? 0x80)) ||
                      ((a =? 0xE2) && (b =? 0x80) &&
                       (((0x80 <=? c) && (c <=? 0x8A)) ||
                        (c =? 0xA8) || (c =? 0xA9) || (c =? 0xAF))) ||
                      ((a =? 0xE2) && (b =? 0x81) && (c =? 0x9F)) ||
                      ((a =? 0xE3) && (b =? 0x80) && (c =? 0x80)) ||
                      ((a =? 0xEF) && (b =? 0xBB) && (c =? 0xBF)))%N
                  then 3 else 0
              end
        end
  end%nat.

(** Number of occurrences of a character. *)
Fixpoint countChar (c : ascii) (s : string) : nat :=
  match s with
  | EmptyString => O
  | String a r => ((if bool_decide (a = c) then 1 else 0) + countChar c r)%nat
  end.

(** ** IdentifierProtector: [protectFieldName] *)

Definition reservedWords : list string :=
  [ "not"; "order"; "group"; "limit"; "offset"; "by"; "where"; "from"; "select";
    "update"; "delete"; "add"; "alter"; "column"; "table"; "into"; "set"; "values";
    "as"; "and"; "or"; "join"; "on"; "having"; "case"; "when"; "then"; "else"; "end";
    "like"; "in"; "between"; "is"; "null"; "asc"; "desc"; "distinct"; "all"; "exists";
    "any"; "some"; "inner"; "outer"; "left"; "right"; "full"; "cross"; "using"; "natural" ].

(** [reservedWords.includes(w)]. *)
Definition isReserved (w : string) : bool :=
  existsb (String.eqb w) reservedWords.

Definition quote (s : string) : string :=
  String backtick (s +:+ String backtick EmptyString).

(** The source recurses on the parts of a dotted name.  [depth] bounds the
    nesting of those calls; a part holds no dot, so two levels are all the
    source ever uses ([protectFieldName_unfold] below is the source's body). *)
Fixpoint protectFieldName_at (depth : nat) (fieldName : string) : string :=
  if startsWith backtick fieldName && endsWith backtick fieldName then fieldName
  else
    match depth with
    | S d =>
        if includes dot fieldName then
          join "." (map (protectFieldName_at d) (split dot fieldName))
        else if isReserved (toLowerCase fieldName) || hasNonWordChar fieldName
             then quote fieldName
             else fieldName
    | O =>
        if isReserved (toLowerCase fieldName) || hasNonWordChar fieldName
        then quote fieldName
        else fieldName
    end.

Definition protectFieldName (fieldName : string) : string :=
  protectFieldName_at 1 fieldName.

(** ** Values and records *)

(** The members of [Object.prototype] (Node.js), which every ordinary object
    inherits: a read [o[k]] and a test [k in o] find them when [o] has no own
    property of that name. *)
Inductive ProtoMember : Type :=
  | p_constructor
  | p_defineGetter
  | p_defineSetter
  | p_hasOwnProperty
  | p_lookupGetter
  | p_lookupSetter
  | p_isPrototypeOf
  | p_propertyIsEnumerable
  | p_toString
  | p_valueOf
  | p_proto
  | p_toLocaleString.

Definition protoName (m : ProtoMember) : string :=
  match m with
  | p_constructor => "constructor"
  | p_defineGetter => "__defineGetter__"
  | p_defineSetter => "__defineSetter__"
  | p_hasOwnProperty => "hasOwnProperty"
  | p_lookupGetter => "__lookupGetter__"
  | p_lookupSetter => "__lookupSetter__"
  | p_isPrototypeOf => "isPrototypeOf"
  | p_propertyIsEnumerable => "propertyIsEnumerable"
  | p_toString => "toString"
  | p_valueOf => "valueOf"
  | p_proto => "__proto__"
  | p_toLocaleString => "toLocaleString"
  end.

Definition protoMembers : list ProtoMember :=
  [ p_constructor; p_defineGetter; p_defineSetter; p_hasOwnProperty;
    p_lookupGetter; p_lookupSetter; p_isPrototypeOf; p_propertyIsEnumerable;
    p_toString; p_valueOf; p_proto; p_toLocaleString ].

(** The member of [Object.prototype] named [k], if there is one. *)
Definition protoMember (k : string) : option ProtoMember :=
  find (fun m => String.eqb (protoName m) k) protoMembers.

(** A JavaScript value ([any] in the source's types).  [JInherited m] is what
    a read finds under an inherited name: the built-in function
    [Object.prototype[m]] ([Object] itself for [constructor]), and for
    [__proto__] the prototype object. *)
#[warnings="-register-all"]
Inductive JsVal : Type :=
  | JUndefined
  | JNull
  | JBool (b : bool)
  | JNum (n : Z)
  | JStr (s : string)
  | JArr (l : list JsVal)
  | JObj (fields : list (string * JsVal))
  | JInherited (m : ProtoMember).

(** [Record<string, any>]: the own properties in enumeration order. *)
Abbreviation Record := (list (string * JsVal)).

(** [Object.keys(r)] and [Object.values(r)]. *)
Definition keys (r : Record) : list string := map fst r.
Definition values (r : Record) : list JsVal := map snd r.

(** [r[k]] among the own properties: the first (only) property named [k],
    [undefined] when absent.  It is all of [r[k]] for the names the source
    writes out ([id], [sql], [value], [length], [0]), none of which
    [Object.prototype] holds. *)
Fixpoint get (r : Record) (k : string) : JsVal :=
  match r with
  | [] => JUndefined
  | (k', v) :: t => if String.eqb k' k then v else get t k
  end.

(** [Object.hasOwn(r, k)]. *)
Definition hasOwn (k : string) (r : Record) : bool :=
  existsb (String.eqb k) (keys r).

(** [r[k]] for a computed name: the own property, else the inherited one,
    else [undefined]. *)
Definition getProp (r : Record) (k : string) : JsVal :=
  if hasOwn k r then get r k
  else match protoMember k with
       | Some m => JInherited m
       | None => JUndefined
       end.

(** [k in r]: an own or an inherited property. *)
Definition hasKey (k : string) (r : Record) : bool :=
  hasOwn k r || match protoMember k with
                | Some _ => true
                | None => false
                end.

(** ** WhereCompiler: [buildWhere] and [buildWhereParams] *)

(** An element of a [Record<string, any>[]]: a mapping, or a [null] or
    [undefined] entry (the source tests [!obj] on every element). *)
Inductive RecordItem : Type :=
  | IRec (r : Record)
  | INull
  | IUndefined.

(** [type Where = string | string[] | Record<string, any> | Record<string, any>[]]. *)
Inductive Where : Type :=
  | WString (s : string)
  | WStrings (l : list string)
  | WRecord (r : Record)
  | WRecords (l : list RecordItem).

(** [!where]: of the values of type [Where] only the empty string is falsy. *)
Definition whereFalsy (where_ : Where) : bool :=
  match where_ with
  | WString EmptyString => true
  | _ => false
  end.

(** [typeof item === 'object']: true of a mapping and of [null]. *)
Definition itemIsObject (i : RecordItem) : bool :=
  match i with
  | IRec _ | INull => true
  | IUndefined => false
  end.

(** [String(item)] as [Array.prototype.join] uses it. *)
Definition itemToString (i : RecordItem) : string :=
  match i with
  | IRec _ => "[object Object]"
  | INull | IUndefined => ""
  end.

(** [keys.map(key => `${protectFieldName(key)} = ?`).join(' AND ')]. *)
Definition equalityClauses (r : Record) : string :=
  join " AND " (map (fun key => protectFieldName key +:+ " = ?") (keys r)).

(** The callback of [where.map] in the list-of-mappings branch. *)
Definition groupClause (obj : RecordItem) : string :=
  match obj with
  | IRec r => "(" +:+ equalityClauses r +:+ ")"
  | INull | IUndefined => ""
  end.

(** [Boolean(s)] on a string. *)
Definition nonEmpty (s : string) : bool :=
  match s with
  | EmptyString => false
  | _ => true
  end.

Definition buildWhere (where_ : Where) : string :=
  if whereFalsy where_ then "1 = 1"
  else
    match where_ with
    | WString s => s
    | WStrings l =>
        match l with
        | _ :: _ => join " AND " l
        | [] => join "," l                       (* String(where) *)
        end
    | WRecord r => equalityClauses r
    | WRecords l =>
        match l with
        | first :: _ =>
            if itemIsObject first
            then join " OR " (filter (fun s => nonEmpty s = true) (map groupClause l))
            else join "," (map itemToString l)   (* String(where) *)
        | [] => join "," (map itemToString l)    (* String(where) *)
        end
    end.

(** [Array.isArray(whereParams) ? whereParams : [whereParams]]. *)
Definition asParamList (whereParams : JsVal) : list JsVal :=
  match whereParams with
  | JArr l => l
  | v => [v]
  end.

(** The callback of [where.flatMap] in [buildWhereParams]. *)
Definition itemValues (obj : RecordItem) : list JsVal :=
  match obj with
  | IRec r => values r
  | INull | IUndefined => []
  end.

(** An omitted [whereParams] is [JUndefined]. *)
Definition buildWhereParams (where_ : Where) (whereParams : JsVal) : list JsVal :=
  if whereFalsy where_ then []
  else
    match whereParams with
    | JUndefined =>
        match where_ with
        | WRecord r => values r
        | WRecords ((first :: _) as l) =>
            if itemIsObject first then flat_map itemValues l else []
        | _ => []
        end
    | _ => asParamList whereParams
    end.

(** ** Rendering values into SQL text *)

(** [String(v)], as a template literal renders [v]; a built-in function is
    rendered as Node.js does. *)
Fixpoint toString (v : JsVal) : string :=
  match v with
  | JUndefined => "undefined"
  | JNull => "null"
  | JBool true => "true"
  | JBool false => "false"
  | JNum n => pretty n
  | JStr s => s
  | JArr l =>
      join "," (map (fun e => match e with
                              | JUndefined | JNull => ""
                              | _ => toString e
                              end) l)
  | JObj _ => "[object Object]"
  | JInherited p_proto => "[object Object]"
  | JInherited p_constructor => "function Object() { [native code] }"
  | JInherited m => "function " +:+ protoName m +:+ "() { [native code] }"
  end.

(** [!v]. *)
Definition falsy (v : JsVal) : bool :=
  match v with
  | JUndefined | JNull | JBool false | JNum 0 | JStr EmptyString => true
  | _ => false
  end.

(** [o[k] = v] on an object: overwrite in place, or append. *)
Fixpoint setProp (k : string) (v : JsVal) (r : Record) : Record :=
  match r with
  | [] => [(k, v)]
  | (k', v') :: t => if String.eqb k' k then (k, v) :: t else (k', v') :: setProp k v t
  end.

(** The own enumerable properties an object spread [...a] copies from an array. *)
Definition spreadArray (a : list JsVal) : Record :=
  imap (fun i v => (pretty (Z.of_nat i), v)) a.

(** The own enumerable properties [...v] copies from any value. *)
Definition spreadProps (v : JsVal) : Record :=
  match v with
  | JObj fields => fields
  | JArr l => spreadArray l
  | JStr s => spreadArray (map (fun c => JStr (String c EmptyString))
                               (String.list_ascii_of_string s))
  | _ => []
  end.

(** [{ sql: sql, ...params }]. *)
Definition withSql (sql : string) (extra : Record) : JsVal :=
  JObj (fold_left (fun o kv => setProp kv.1 kv.2 o) extra [("sql", JStr sql)]).

(** ** The world: pool, cache and the calls made to the pooled client *)

Inductive Error : Type :=
  | Err (message : string)          (* [new Error(message)] *)
  | TypeError (message : string)    (* raised by the runtime *)
  | SqlError (message : string).    (* a rejection of the pooled client *)

Inductive Outcome (A : Type) : Type :=
  | Ok (a : A)
  | Throw (e : Error).
Arguments Ok {A} a.
Arguments Throw {A} e.

Record UpsertResult : Type := mkUpsert
  { affectedRows : Z; insertId : Z; warningStatus : Z }.

(** A column of the client's result metadata, and what [getColumnDefs]
    makes of it ([{ field: column.name(), type: column.type }]). *)
Record Column : Type := mkColumn { col_name : string; col_type : string }.
Record ColumnDef : Type := mkColumnDef { field : string; type_ : string }.

(** What the pooled client resolves to: an array of rows carrying an optional
    [meta] property, or the upsert result of a write. *)
Inductive DriverResult : Type :=
  | DRows (rows : list Record) (meta : option (list Column))
  | DUpsert (u : UpsertResult).

Inductive Event : Type :=
  | PoolQuery (sql : JsVal) (vals : JsVal)
  | PoolExecute (sql : JsVal) (vals : JsVal)
  | PoolGetConnection
  | ConnBatch (sql : JsVal) (vals : JsVal)
  | ConnRelease
  | ConsoleError (label : string) (e : Error).

(** The pooled client (an external collaborator).  Each call sees the calls
    made so far, so that any deterministic database is an instance. *)
Record Driver : Type := mkDriver
  { pool_query : list Event -> JsVal -> JsVal -> Outcome DriverResult;
    pool_execute : list Event -> JsVal -> JsVal -> Outcome DriverResult;
    pool_getConnection : list Event -> Outcome unit;
    conn_batch : list Event -> JsVal -> JsVal -> Outcome UpsertResult }.

(** A cached chunk table: [[startId, endId]] pairs. *)
Abbreviation ChunkTable := (list (JsVal * JsVal)).

(** The pool, the chunk cache (a finite map from keys to chunk tables) and the
    calls made to the pooled client so far. *)
Record World : Type := mkWorld
  { pool : bool;                         (* [this.pool] is defined *)
    cache : gmap string ChunkTable;
    trace : list Event }.

Definition M (A : Type) : Type := World -> Outcome A * World.

Definition ret {A} (a : A) : M A := fun w => (Ok a, w).
Definition throw {A} (e : Error) : M A := fun w => (Throw e, w).
Definition bind {A B} (m : M A) (k : A -> M B) : M B :=
  fun w => match m w with
           | (Ok a, w') => k a w'
           | (Throw e, w') => (Throw e, w')
           end.

(** [try { m } catch (err) { h err }]. *)
Definition tryCatch {A} (m : M A) (h : Error -> M A) : M A :=
  fun w => match m w with
           | (Ok a, w') => (Ok a, w')
           | (Throw e, w') => h e w'
           end.

Declare Scope js_scope.
Delimit Scope js_scope with js.
Notation "'let*' x ':=' m 'in' k" := (bind m (fun x => k))
  (at level 10, x name, m at level 100, k at level 200) : js_scope.
Notation "m ';;' k" := (bind m (fun _ => k))
  (at level 100, k at level 200, right associativity) : js_scope.
Open Scope js_scope.

Definition poolReady : M bool := fun w => (Ok (pool w), w).
Definition emit (e : Event) : M unit :=
  fun w => (Ok tt, mkWorld (pool w) (cache w) (trace w ++ [e])).
Definition history : M (list Event) := fun w => (Ok (trace w), w).
Definition lift {A} (o : Outcome A) : M A := fun w => (o, w).

(** Modelled from the spec: the memoization store of [./cache.server], which is
    not part of the sources; [cacheGet] is its [get(key) -> value | absent]. *)
Definition cacheGet (key : string) : M (option ChunkTable) :=
  fun w => (Ok (cache w !! key), w).

(** Modelled from the spec: [set(key, value) -> void] of the same store, which
    is not part of the sources. *)
Definition cacheSet (key : string) (t : ChunkTable) : M unit :=
  fun w => (Ok tt, mkWorld (pool w) (<[key := t]> (cache w)) (trace w)).

(** ** ExecutionFacade: [query], [execute], [batch] *)

(** [/\blimit\s+1\b/i.test(sql)].  [afterSpaces] reads [\s+1\b] once the word
    [limit] has been read, [skip] counting the bytes still to pass of the
    white-space character being read and [seen] telling that one has been
    read; [limitHere] reads [limit\s+1\b] at the head of the text;
    [limitOneFrom] tries every position, [prevWord] telling whether the
    character before it is a word character. *)
Fixpoint afterSpaces (skip : nat) (seen : bool) (s : string) {struct s} : bool :=
  match s with
  | EmptyString => false
  | String a r =>
      match skip with
      | S k => afterSpaces k seen r
      | O =>
          match spaceWidth s with
          | S k => afterSpaces k true r
          | O =>
              seen && bool_decide (a = "1"%char) &&
              match r with
              | EmptyString => true
              | String b _ => negb (isWordChar b)
              end
          end
      end
  end.

Definition limitHere (s : string) : bool :=
  match s with
  | String c1 (String c2 (String c3 (String c4 (String c5 r)))) =>
      String.eqb (toLowerCase (String c1 (String c2 (String c3 (String c4 (String c5 EmptyString))))))
                 "limit"
      && afterSpaces 0 false r
  | _ => false
  end.

Fixpoint limitOneFrom (prevWord : bool) (s : string) : bool :=
  (negb prevWord && limitHere s) ||
  match s with
  | EmptyString => false
  | String a r => limitOneFrom (isWordChar a) r
  end.

Definition limitOne (sql : string) : bool := limitOneFrom false sql.

(** [s.startsWith(p)] for a string prefix. *)
Definition startsWithStr (p s : string) : bool := String.prefix p s.

(** [values?.constructor === Object]: the [constructor] an object reads is
    its own property of that name if it has one, and [Object] is the one it
    inherits; an array, a string, a number and a function have other
    constructors, and [Object.prototype] has [Object]. *)
Definition isPlainObject (v : JsVal) : bool :=
  match v with
  | JObj fields =>
      match getProp fields "constructor" with
      | JInherited p_constructor => true
      | _ => false
      end
  | JInherited p_proto => true
  | _ => false
  end.

Definition getColumnDefs (meta : list Column) : list ColumnDef :=
  map (fun column => mkColumnDef (col_name column) (col_type column)) meta.

(** What [query] resolves to: the single row of a [limit 1] statement, the
    rows with their normalised metadata, or the result of a write. *)
Inductive QueryResult : Type :=
  | QRow (r : Record)
  | QRows (rows : list Record) (meta : option (list ColumnDef))
  | QUpsert (u : UpsertResult).

(** What the public methods resolve to. *)
Inductive Result : Type :=
  | RError (error : string)              (* [{ error }] *)
  | RTotal (total : nat)                 (* [{ total }] *)
  | RQuery (q : QueryResult)
  | RDriver (d : DriverResult)
  | RValue (v : JsVal).                  (* a column of a bare row *)

Definition notInitialized : string := "pool is not initialized".

(** [params] is the array of the source's default [[]]. *)
Definition withParams (sql : JsVal) (params : list JsVal) : JsVal :=
  match params, sql with
  | _ :: _, JStr s => withSql s (spreadArray params)
  | _, _ => sql
  end.

(** ** ChunkPlanner: the chunk table *)

(** The chunk selector: a window index, or the count-only marker ['?']. *)
Inductive Chunk : Type :=
  | ChunkIndex (n : Z)
  | ChunkCount.

(** [data[i].id] for an index inside the array. *)
Definition idAt (data : list Record) (i : nat) : JsVal :=
  match data !! i with
  | Some row => get row "id"
  | None => JUndefined
  end.

(** The loop [for (let i = 20; i < data.length; i += 1000)]; [fuel] bounds the
    number of iterations ([length data] of them is more than the loop makes). *)
Fixpoint chunkLoop (fuel : nat) (data : list Record) (i : nat) : ChunkTable :=
  match fuel with
  | O => []
  | S f =>
      if (i <? length data)%nat then
        (idAt data i,
         idAt data (if (i + 1000 - 1 <? length data - 1)%nat
                    then i + 1000 - 1 else length data - 1)%nat)
        :: chunkLoop f data (i + 1000)%nat
      else []
  end.

(** The table built on a cache miss from what [query] resolved to.  A bare
    row (taken to have no column named [0]) and a write result have no
    element [0], and neither has an empty array: reading [.id] of it raises a
    [TypeError]. *)
Definition buildChunkTable (data : QueryResult) : Outcome ChunkTable :=
  match data with
  | QRows ((row0 :: _) as rows) _ =>
      match get row0 "id" with
      | JUndefined => Throw (Err "id is required")
      | _ =>
          Ok ((idAt rows 0,
               idAt rows (if (20 <? length rows)%nat then 20 - 1 else length rows - 1)%nat)
              :: chunkLoop (length rows) rows 20)
      end
  | _ => Throw (TypeError "Cannot read properties of undefined (reading 'id')")
  end.

(** [chunk >= chunkTable.length]: never true of ['?']. *)
Definition chunkBeyond (chunk : Chunk) (len : nat) : bool :=
  match chunk with
  | ChunkIndex n => Z.of_nat len <=? n
  | ChunkCount => false
  end.

(** The end of [getChunk]: the bounds of window [chunk] and the number of
    windows.  An index below [0] reads [chunkTable[chunk]] as [undefined]. *)
Definition lookupChunk (chunkTable : ChunkTable) (chunk : Chunk)
  : Outcome (JsVal * JsVal * nat) :=
  if chunkBeyond chunk (length chunkTable) then Ok (JNull, JNull, length chunkTable)
  else
    match chunk with
    | ChunkCount => Ok (JNull, JNull, length chunkTable)
    | ChunkIndex n =>
        if n <? 0 then Throw (TypeError "Cannot read properties of undefined (reading '0')")
        else
          match chunkTable !! Z.to_nat n with
          | Some (startId, endId) => Ok (startId, endId, length chunkTable)
          | None => Throw (TypeError "Cannot read properties of undefined (reading '0')")
          end
    end.

(** ** StatementAssembler: the text of a SELECT *)

Inductive Command : Type := findFirst | findMany | findAll.

Inductive joinType : Type := LEFT | RIGHT | INNER | OUTER | CROSS.

(** A parameter of type [T | T[]]. *)
Inductive OneOrMany (A : Type) : Type :=
  | One (a : A)
  | Many (l : list A).
Arguments One {A} a.
Arguments Many {A} l.

(** [Array.isArray(x) ? x : [x]]. *)
Definition toList {A} (x : OneOrMany A) : list A :=
  match x with
  | One a => [a]
  | Many l => l
  end.

(** [interface QueryParams]; an omitted field is [None] (or [JUndefined]). *)
Record QueryParams : Type := mkQueryParams
  { q_command : option Command;
    q_select : option (OneOrMany string);
    q_from : OneOrMany string;
    q_join : option (OneOrMany string);
    q_joinType : option (OneOrMany joinType);
    q_where : option Where;
    q_whereParams : JsVal;
    q_order : option (OneOrMany string);
    q_group : option (OneOrMany string);
    q_limit : option Z;
    q_page : option Z;
    q_offset : option Z;
    q_chunk : option Chunk;
    q_options : JsVal;
    q_asArray : option bool }.

Definition joinTypeName (t : joinType) : string :=
  match t with
  | LEFT => "LEFT" | RIGHT => "RIGHT" | INNER => "INNER"
  | OUTER => "OUTER" | CROSS => "CROSS"
  end.

(** Truthiness of a [string | string[]]: every array is truthy. *)
Definition truthyOM (x : OneOrMany string) : bool :=
  match x with
  | One s => nonEmpty s
  | Many _ => true
  end.

(** Truthiness of an optional number. *)
Definition truthyNum (n : option Z) : bool :=
  match n with
  | Some z => negb (z =? 0)
  | None => false
  end.

(** The callback of [select.map]. *)
Definition protectSelectItem (item : string) : string :=
  if includesStr " as " (toLowerCase item) || includes "("%char item || String.eqb item "*"
  then item
  else protectFieldName item.

(** [s.trim()].  [skip] counts the bytes still to pass of the white-space
    character being read. *)
Fixpoint trimStart (skip : nat) (s : string) {struct s} : string :=
  match s with
  | EmptyString => EmptyString
  | String a r =>
      match skip with
      | S k => trimStart k r
      | O =>
          match spaceWidth s with
          | S k => trimStart k r
          | O => s
          end
      end
  end.

(** The text is white space to its end. *)
Fixpoint allSpaces (skip : nat) (s : string) {struct s} : bool :=
  match s with
  | EmptyString => true
  | String a r =>
      match skip with
      | S k => allSpaces k r
      | O =>
          match spaceWidth s with
          | S k => allSpaces k r
          | O => false
          end
      end
  end.

Fixpoint trimEnd (s : string) : string :=
  match s with
  | EmptyString => EmptyString
  | String a r => if allSpaces 0 s then EmptyString else String a (trimEnd r)
  end.

Definition trim (s : string) : string := trimEnd (trimStart 0 s).

(** [s.split(/\s+/)]; [inSpace] tells that the previous character was white. *)
Fixpoint splitSpaces (skip : nat) (inSpace : bool) (s : string) {struct s} : list string :=
  match s with
  | EmptyString => [EmptyString]
  | String a r =>
      match skip with
      | S k => splitSpaces k inSpace r
      | O =>
          match spaceWidth s with
          | S k =>
              if inSpace then splitSpaces k true r
              else EmptyString :: splitSpaces k true r
          | O =>
              match splitSpaces 0 false r with
              | h :: t => String a h :: t
              | [] => [String a EmptyString]
              end
          end
      end
  end.

(** The callback of [order.map]. *)
Definition protectOrderItem (item : string) : string :=
  match splitSpaces 0 false (trim item) with
  | column :: ((_ :: _) as direction) =>
      protectFieldName column +:+ " " +:+ join " " direction
  | _ => protectFieldName item
  end.

(** The loop over [join]: [` ${joinType[i]} JOIN ${join[i]}`]. *)
Fixpoint joinClauses (joins : list string) (types : list joinType) : string :=
  match joins with
  | [] => EmptyString
  | j :: js =>
      " " +:+ match types with
              | t :: _ => joinTypeName t
              | [] => "undefined"
              end +:+ " JOIN " +:+ j +:+ joinClauses js (tail types)
  end.

(** [join.length > 0] on a [string | string[]]. *)
Definition hasLength (x : OneOrMany string) : bool :=
  match x with
  | One s => nonEmpty s
  | Many l => match l with [] => false | _ => true end
  end.

(** [SELECT ... FROM ...] with the joins. *)
Definition selectHead (p : QueryParams) : string :=
  let select := map protectSelectItem (toList (default (One "*") (q_select p))) in
  let sql := "SELECT " +:+ join ", " select +:+ " FROM " in
  let sql := sql +:+ match q_from p with
                     | One from => from
                     | Many from => join ", " from
                     end in
  let join_ := default (Many []) (q_join p) in
  if hasLength join_ then
    let joins := toList join_ in
    let types := match q_joinType p with
                 | None => replicate (length joins) LEFT
                 | Some (One t) => replicate (length joins) t
                 | Some (Many l) => l
                 end in
    sql +:+ joinClauses joins types
  else sql.

(** The [where] of the request after its default ['1=1']. *)
Definition whereOf (p : QueryParams) : Where := default (WString "1=1") (q_where p).

(** The [where] variable after the WHERE block: the compiled text, or the
    falsy original. *)
Definition whereText (p : QueryParams) : string :=
  if whereFalsy (whereOf p) then EmptyString else buildWhere (whereOf p).

(** The [whereParams] variable after the WHERE block. *)
Definition whereValues (p : QueryParams) : JsVal :=
  if whereFalsy (whereOf p) then q_whereParams p
  else JArr (buildWhereParams (whereOf p) (q_whereParams p)).

Definition whereClause (p : QueryParams) : string :=
  if whereFalsy (whereOf p) then EmptyString else " WHERE " +:+ buildWhere (whereOf p).

Definition groupClauseSql (p : QueryParams) : string :=
  match q_group p with
  | Some group =>
      if truthyOM group
      then " GROUP BY " +:+ join ", " (map protectFieldName (toList group))
      else EmptyString
  | None => EmptyString
  end.

Definition orderClause (p : QueryParams) : string :=
  match q_order p with
  | Some order =>
      if truthyOM order
      then " ORDER BY " +:+ join ", " (map protectOrderItem (toList order))
      else EmptyString
  | None => EmptyString
  end.

Definition limitClause (p : QueryParams) : string :=
  match q_limit p with
  | Some limit =>
      if truthyNum (Some limit) then
        " LIMIT " +:+ pretty limit +:+
        (if truthyNum (q_page p) && (1 <? default 0 (q_page p))
         then " OFFSET " +:+ pretty ((default 0 (q_page p) - 1) * limit)
         else if truthyNum (q_offset p)
              then " OFFSET " +:+ pretty (default 0 (q_offset p))
              else EmptyString)
      else EmptyString
  | None => EmptyString
  end.

(** The statement text before the chunk block. *)
Definition selectSql (p : QueryParams) : string :=
  selectHead p +:+ whereClause p +:+ groupClauseSql p +:+ orderClause p +:+ limitClause p.

Definition commandOf (p : QueryParams) : Command :=
  match q_command p with
  | Some c => c
  | None =>
      match q_limit p with
      | Some limit => if truthyNum (Some limit) && (1 <? limit) then findMany else findFirst
      | None => findFirst
      end
  end.

Definition chunkOf (p : QueryParams) : option Chunk :=
  match commandOf p, q_chunk p with
  | findAll, None => Some (ChunkIndex 0)
  | _, c => c
  end.

(** [v || fallback]. *)
Definition orElse (v fallback : JsVal) : JsVal := if falsy v then fallback else v.

(** ** [result.length > 0]: a value compared with a number *)

Definition isDigit (a : ascii) : bool :=
  let n := N_of_ascii a in ((48 <=? n) && (n <=? 57))%N.

(** The [DecimalDigits] at the head of [s]: their value read after [value],
    their number counted from [count], and the rest of the text. *)
Fixpoint readDigits (value : Z) (count : nat) (s : string) : Z * nat * string :=
  match s with
  | EmptyString => (value, count, s)
  | String a r =>
      if isDigit a
      then readDigits (10 * value + (Z.of_N (N_of_ascii a) - 48)) (S count) r
      else (value, count, s)
  end.

(** The digit [a] stands for in a base of at most 16. *)
Definition digitOf (base : N) (a : ascii) : option N :=
  let n := N_of_ascii a in
  let d := if ((48 <=? n) && (n <=? 57))%N then Some (n - 48)%N
           else if ((97 <=? n) && (n <=? 102))%N then Some (n - 87)%N
           else if ((65 <=? n) && (n <=? 70))%N then Some (n - 55)%N
           else None in
  match d with
  | Some d => if (d <? base)%N then Some d else None
  | None => None
  end.

(** Digits of [base] to the end of the text: whether one of them is not [0];
    [None] when a character is no digit of the base. *)
Fixpoint someDigit (base : N) (s : string) : option bool :=
  match s with
  | EmptyString => Some false
  | String a r =>
      match digitOf base a, someDigit base r with
      | Some d, Some more => Some (negb (d =? 0)%N || more)
      | _, _ => None
      end
  end.

(** The digits of a [0x], [0o] or [0b] literal, with their base. *)
Definition nonDecimal (s : string) : option (N * string) :=
  match s with
  | String "0" (String x digits) =>
      if bool_decide (x = "x"%char) || bool_decide (x = "X"%char) then Some (16%N, digits)
      else if bool_decide (x = "o"%char) || bool_decide (x = "O"%char) then Some (8%N, digits)
      else if bool_decide (x = "b"%char) || bool_decide (x = "B"%char) then Some (2%N, digits)
      else None
  | _ => None
  end.

(** An optional [ExponentPart] that ends the text: its value, [0] when there
    is none; [None] when the text is something else. *)
Definition exponentOf (s : string) : option Z :=
  match s with
  | EmptyString => Some 0
  | String e r =>
      if bool_decide (e = "e"%char) || bool_decide (e = "E"%char) then
        let signed := match r with
                      | String "+" digits => (1, digits)
                      | String "-" digits => (-1, digits)
                      | _ => (1, r)
                      end in
        match readDigits 0 0 signed.2 with
        | (value, S _, EmptyString) => Some (signed.1 * value)
        | _ => None
        end
      else None
  end.

(** A [StrUnsignedDecimalLiteral] whose number is above [0]: [Infinity], or
    digits with an optional fraction and exponent that denote
    [mantissa * 10^k] above [2^-1075], the least value that does not round
    to [0]. *)
Definition unsignedPositive (s : string) : bool :=
  if String.eqb s "Infinity" then true
  else
    let '(whole, wholeDigits, r1) := readDigits 0 0 s in
    let '(mantissa, fractionDigits, r2) :=
      match r1 with
      | String "." r => readDigits whole 0 r
      | _ => (whole, O, r1)
      end in
    match wholeDigits, fractionDigits with
    | O, O => false
    | _, _ =>
        match exponentOf r2 with
        | Some e =>
            let k := e - Z.of_nat fractionDigits in
            (0 <? mantissa) &&
            (if 0 <=? k then true else 10 ^ (- k) <? mantissa * 2 ^ 1075)
        | None => false
        end
    end.

(** [Number(s) > 0] on a string: white space trimmed, then a literal of base
    16, 8 or 2, or a signed decimal literal; anything else is [NaN]. *)
Definition numberPositive (s : string) : bool :=
  let text := trim s in
  match nonDecimal text with
  | Some (base, digits) =>
      match someDigit base digits with
      | Some positive => positive
      | None => false
      end
  | None =>
      match text with
      | String "+" r => unsignedPositive r
      | String "-" _ => false
      | _ => unsignedPositive text
      end
  end.

(** [v > 0]: the value made a primitive, then a number.  An array is its
    joined text; an object and a function are texts that are no number. *)
Definition greaterThanZero (v : JsVal) : bool :=
  match v with
  | JNum n => 0 <? n
  | JBool b => b
  | JStr s => numberPositive s
  | JArr _ => numberPositive (toString v)
  | JUndefined | JNull | JObj _ | JInherited _ => false
  end.

(** ** StatementAssembler: the write requests *)

Definition emptyInsert : UpsertResult := mkUpsert 0 0 0.

(** [interface UpdateParams]. *)
Record UpdateParams : Type := mkUpdateParams
  { u_table : string;
    u_values : OneOrMany Record;
    u_where : option Where;
    u_whereParams : JsVal }.

(** The argument of [objectUpdate]. *)
Record ObjectUpdateOptions : Type := mkObjectUpdate
  { ou_table : string;
    ou_values : list Record;
    ou_whereField : option string }.

(** [Object.keys(record).filter(field => field !== whereField)]. *)
Definition otherFields (whereField : string) (record : Record) : list string :=
  filter (fun field_ => field_ <> whereField) (keys record).

(** ** The methods that talk to the pooled client *)

Section Client.

Variable driver : Driver.

Definition query (sql : JsVal) (vals : JsVal) (params : JsVal) : M QueryResult :=
  let* ready := poolReady in
  if negb ready then throw (Err notInitialized)
  else
    let sql1 := match sql with
                | JStr s => withSql s (spreadProps params)
                | _ => sql
                end in
    match sql1 with
    | JObj fields =>
        match get fields "sql" with
        | JStr text =>
            let sql2 :=
              if startsWithStr "select" (toLowerCase text) && isPlainObject vals
              then JObj (setProp "namedPlaceholders" (JBool true) fields)
              else sql1 in
            let* h := history in
            emit (PoolQuery sql2 vals) ;;
            let* result := lift (pool_query driver h sql2 vals) in
            match result with
            | DRows rows meta =>
                match rows with
                | [row] =>
                    if limitOne text then ret (QRow row)
                    else ret (QRows rows (option_map getColumnDefs meta))
                | _ => ret (QRows rows (option_map getColumnDefs meta))
                end
            | DUpsert u => ret (QUpsert u)
            end
        | _ => throw (TypeError "sql.sql.toLowerCase is not a function")
        end
    | _ => throw (TypeError "Cannot read properties of undefined (reading 'toLowerCase')")
    end.

Definition execute (sql : JsVal) (vals : JsVal) (params : list JsVal) : M Result :=
  let* ready := poolReady in
  if negb ready then ret (RError notInitialized)
  else
    let sql1 := withParams sql params in
    let* h := history in
    emit (PoolExecute sql1 vals) ;;
    let* result := lift (pool_execute driver h sql1 vals) in
    ret (RDriver result).

Definition batch (sql : JsVal) (vals : JsVal) (params : list JsVal) : M UpsertResult :=
  let* ready := poolReady in
  if negb ready then throw (Err notInitialized)
  else
    let sql1 := withParams sql params in
    let* h0 := history in
    emit PoolGetConnection ;;
    let* conn := lift (pool_getConnection driver h0) in
    let* h1 := history in
    emit (ConnBatch sql1 vals) ;;
    let* result := lift (conn_batch driver h1 sql1 vals) in
    emit ConnRelease ;;
    ret result.

Definition getChunk (sql : string) (chunk : Chunk) : M (JsVal * JsVal * nat) :=
  let* cached := cacheGet ("chunk" +:+ sql) in
  let* chunkTable :=
    match cached with
    | Some t => ret t
    | None =>
        let* data := query (JStr sql) JUndefined (JArr []) in
        let* t := lift (buildChunkTable data) in
        cacheSet ("chunk" +:+ sql) t ;;
        ret t
    end in
  lift (lookupChunk chunkTable chunk).

(** The end of [select]: run the statement and pick the first row for
    [findFirst].  On a bare row [result.length] and [result[0]] are the
    columns of those names; the result of a write has neither. *)
Definition runSelect (p : QueryParams) (sql : string) : M Result :=
  let* result := query (JStr sql) (orElse (whereValues p) (JArr []))
                       (orElse (q_options p) (JObj [])) in
  match commandOf p, result with
  | findFirst, QRows (row :: _) _ =>
      if default false (q_asArray p)
      then ret (RQuery (QRows [row] None))
      else ret (RQuery (QRow row))
  | findFirst, QRow row =>
      if greaterThanZero (get row "length") then
        if default false (q_asArray p)
        then ret (RValue (JArr [get row "0"]))
        else ret (RValue (get row "0"))
      else ret (RQuery result)
  | _, _ => ret (RQuery result)
  end.

(** [params] is [None] for a missing argument. *)
Definition select (params : option QueryParams) : M Result :=
  let* ready := poolReady in
  if negb ready then ret (RError notInitialized)
  else
    match params with
    | None => ret (RError "params is required")
    | Some p =>
        let sql := selectSql p in
        match chunkOf p with
        | Some chunk =>
            let* bounds := getChunk sql chunk in
            let '(startId, endId, total) := bounds in
            match chunk with
            | ChunkCount => ret (RTotal total)
            | ChunkIndex _ =>
                match startId, endId with
                | JNull, _ | _, JNull => ret (RTotal total)
                | _, _ =>
                    let between :=
                      "id BETWEEN " +:+ toString startId +:+ " AND " +:+ toString endId in
                    if nonEmpty (whereText p)
                    then runSelect p (sql +:+ " AND " +:+ between)
                    else runSelect p (sql +:+ " WHERE " +:+ between)
                end
            end
        | None => runSelect p sql
        end
    end.

(** *** The write statements *)

Definition insert (table : string) (vals : OneOrMany Record) : M Result :=
  let valuesArray := toList vals in
  match valuesArray with
  | [] => ret (RDriver (DUpsert emptyInsert))
  | first :: _ =>
      let keys_ := keys first in
      let protectedKeys := map protectFieldName keys_ in
      let placeholders :=
        join "," (map (fun _ => "(" +:+ join "," (map (fun _ => "?") keys_) +:+ ")")
                      valuesArray) in
      let flatValues := flat_map (fun v => map (fun k => getProp v k) keys_) valuesArray in
      let sql := "INSERT INTO " +:+ table +:+ " (" +:+ join "," protectedKeys +:+
                 ") VALUES " +:+ placeholders in
      execute (JStr sql) (JArr flatValues) []
  end.

Definition update (params : UpdateParams) : M QueryResult :=
  match u_where params with
  | None => throw (Err "where is required")
  | Some where_ =>
      if whereFalsy where_ then throw (Err "where is required")
      else
        let valuesArray := toList (u_values params) in
        match valuesArray with
        | [] => throw (Err "values is required")
        | first :: _ =>
            let whereParams := buildWhereParams where_ (u_whereParams params) in
            let whereSql := buildWhere where_ in
            let sql := "UPDATE " +:+ u_table params +:+ " SET " +:+
                       join "," (map (fun key => protectFieldName key +:+ " = ?") (keys first))
                       +:+ " WHERE " +:+ whereSql in
            let placeholders := flat_map values valuesArray in
            query (JStr sql) (JArr (placeholders ++ whereParams)) (JArr [])
        end
  end.

Definition objectUpdate (options : ObjectUpdateOptions) : M UpsertResult :=
  let table := ou_table options in
  let vals := ou_values options in
  let whereField := default "id" (ou_whereField options) in
  match vals with
  | [] =>
      throw (Err "Invalid parameters: table, values (array) and whereField are required")
  | first :: _ =>
      if negb (nonEmpty table) || negb (nonEmpty whereField) then
        throw (Err "Invalid parameters: table, values (array) and whereField are required")
      else if existsb (fun record => negb (hasKey whereField record)) vals then
        throw (Err ("Tüm kayıtlarda '" +:+ whereField +:+ "' alanı bulunmalıdır"))
      else
        let firstRecordFields := otherFields whereField first in
        let allHaveSameFields :=
          forallb (fun record =>
                     let fields := otherFields whereField record in
                     (length fields =? length firstRecordFields)%nat &&
                     forallb (fun field_ => existsb (String.eqb field_) firstRecordFields)
                             fields)
                  vals in
        if negb allHaveSameFields then throw (Err "All records must have the same fields")
        else
          tryCatch
            (let fields := firstRecordFields in
             let setClause := join ", " (map (fun field_ => field_ +:+ " = ?") fields) in
             let sql := "UPDATE " +:+ table +:+ " SET " +:+ setClause +:+
                        " WHERE " +:+ whereField +:+ " = ?" in
             let batchParams :=
               map (fun record =>
                      JArr (map (fun field_ => getProp record field_) fields
                            ++ [getProp record whereField]))
                   vals in
             batch (JStr sql) (JArr batchParams) [])
            (fun err => emit (ConsoleError "Batch update error:" err) ;; throw err)
  end.

End Client.

(** ** Vocabulary of the properties *)

(** The name is already between backticks. *)
Definition quoted (s : string) : bool := startsWith backtick s && endsWith backtick s.

(** What the source does to a name without a dot. *)
Definition protectPart (s : string) : string :=
  if quoted s then s
  else if isReserved (toLowerCase s) || hasNonWordChar s then quote s else s.

(** What [query] resolves to from what the client resolved to. *)
Definition resolved (sql : string) (result : DriverResult) : QueryResult :=
  match result with
  | DRows rows meta =>
      match rows with
      | [row] => if limitOne sql then QRow row else QRows rows (option_map getColumnDefs meta)
      | _ => QRows rows (option_map getColumnDefs meta)
      end
  | DUpsert u => QUpsert u
  end.

(** [params.where] is truthy. *)
Definition hasWhere (params : UpdateParams) : bool :=
  match u_where params with
  | Some where_ => negb (whereFalsy where_)
  | None => false
  end.

(** No raw fragment and no key of the specification holds a question mark. *)
Definition noPlaceholder (s : string) : bool := bool_decide (countChar qmark s = 0%nat).

Definition itemPlaceholderFree (i : RecordItem) : bool :=
  match i with
  | IRec r => forallb noPlaceholder (keys r)
  | INull | IUndefined => true
  end.

Definition placeholderFree (where_ : Where) : bool :=
  match where_ with
  | WString s => noPlaceholder s
  | WStrings l => forallb noPlaceholder l
  | WRecord r => forallb noPlaceholder (keys r)
  | WRecords l => forallb itemPlaceholderFree l
  end.

(** The mappings of a list, its [null] and [undefined] entries skipped. *)
Definition mappingsOf (l : list RecordItem) : list Record :=
  omap (fun i => match i with IRec r => Some r | _ => None end) l.

(** The text the specification gives for a list of mappings: each mapping's
    AND-joined clauses between parentheses, the groups joined with [" OR "]. *)
Definition orOfGroups (l : list RecordItem) : string :=
  join " OR " (map (fun r => "(" +:+ equalityClauses r +:+ ")") (mappingsOf l)).

(** Its parameters: the values in mapping order, then key order. *)
Definition valuesOfGroups (l : list RecordItem) : list JsVal :=
  concat (map values (mappingsOf l)).

(** The windows of a result of [n] rows, as pairs of first and last position:
    the first [min 20 n] rows, then blocks of [1000] from position [20]. *)
Definition bulkWindows (n : nat) : nat := ((n - 20 + 999) / 1000)%nat.

Definition bulkWindow (n k : nat) : nat * nat :=
  (20 + 1000 * k, Nat.min (20 + 1000 * (k + 1)) n - 1)%nat.

Definition chunkWindows (n : nat) : list (nat * nat) :=
  (0, Nat.min 20 n - 1)%nat :: map (bulkWindow n) (seq 0 (bulkWindows n)).

(** The ids at the ends of a window. *)
Definition idsOf (data : list Record) (window : nat * nat) : JsVal * JsVal :=
  (idAt data window.1, idAt data window.2).

(** [ws] are consecutive, non-empty windows that cover exactly the positions
    from [start] to [stop - 1]: no gap and no overlap. *)
Fixpoint tiles (ws : list (nat * nat)) (start stop : nat) : Prop :=
  match ws with
  | [] => start = stop
  | (a, b) :: rest => a = start /\ (a <= b)%nat /\ tiles rest (S b) stop
  end.

(** The key of the chunk cache for a statement. *)
Definition chunkKey (sql : string) : string := "chunk" +:+ sql.

(** The options object [query] makes of a statement text alone. *)
Definition baseQuery (sql : string) : JsVal := JObj [("sql", JStr sql)].

(** The world after one more call to the pooled client. *)
Definition afterCall (w : World) (e : Event) : World :=
  mkWorld (pool w) (cache w) (trace w ++ [e]).

(** ** Sample clients and worlds *)

(** A client whose every query resolves to [rows], and whose writes succeed. *)
Definition rowsDriver (rows : list Record) : Driver :=
  mkDriver (fun _ _ _ => Ok (DRows rows None))
           (fun _ _ _ => Ok (DUpsert (mkUpsert 1 0 0)))
           (fun _ => Ok tt)
           (fun _ _ _ => Ok (mkUpsert 1 0 0)).

(** A client whose batch is rejected. *)
Definition rejectingDriver : Driver :=
  mkDriver (fun _ _ _ => Throw (SqlError "query failed"))
           (fun _ _ _ => Throw (SqlError "execute failed"))
           (fun _ => Ok tt)
           (fun _ _ _ => Throw (SqlError "batch failed")).

(** An initialised pool with an empty cache, and a world before [config]. *)
Definition freshWorld : World := mkWorld true ∅ [].
Definition unconfigured : World := mkWorld false ∅ [].

(** A request for all the ids of table [t]:
    [{ command: 'findAll', select: 'id', from: 't', order: 'id' }]. *)
Definition idsOfT : QueryParams :=
  mkQueryParams (Some findAll) (Some (One "id")) (One "t") None None None JUndefined
                (Some (One "id")) None None None None None JUndefined None.

(** A request for the first id of table [t], by chunks:
    [{ select: 'id', from: 't', limit: 1, chunk: 0 }]. *)
Definition firstOfT : QueryParams :=
  mkQueryParams None (Some (One "id")) (One "t") None None None JUndefined
                None None (Some 1) None None (Some (ChunkIndex 0)) JUndefined None.

(** A request for the row of table [t] that has the newest id of table [u]:
    [{ command: 'findAll', select: 'id', from: 't',
       where: 'id = (SELECT max(id) FROM u LIMIT 1)' }]. *)
Definition newestOfT : QueryParams :=
  mkQueryParams (Some findAll) (Some (One "id")) (One "t") None None
                (Some (WString "id = (SELECT max(id) FROM u LIMIT 1)")) JUndefined
                None None None None None None JUndefined None.

Definition withChunk (p : QueryParams) (chunk : option Chunk) : QueryParams :=
  mkQueryParams (q_command p) (q_select p) (q_from p) (q_join p) (q_joinType p)
                (q_where p) (q_whereParams p) (q_order p) (q_group p) (q_limit p)
                (q_page p) (q_offset p) chunk (q_options p) (q_asArray p).

Definition withWhere (p : QueryParams) (where_ : option Where) : QueryParams :=
  mkQueryParams (q_command p) (q_select p) (q_from p) (q_join p) (q_joinType p)
                where_ (q_whereParams p) (q_order p) (q_group p) (q_limit p)
                (q_page p) (q_offset p) (q_chunk p) (q_options p) (q_asArray p).

(** Rows with the ids [first, first + 1, ...]. *)
Definition idRows (first : Z) (n : nat) : list Record :=
  map (fun i => [("id", JNum (first + Z.of_nat i))]) (seq 0 n).

(** Connections acquired and not released along a trace. *)
Fixpoint openConnections (t : list Event) : Z :=
  match t with
  | [] => 0
  | PoolGetConnection :: r => openConnections r + 1
  | ConnRelease :: r => openConnections r - 1
  | _ :: r => openConnections r
  end.

(** ** The other methods of the class *)

(** [sql.replace(/,/g, '`')]. *)
Fixpoint sanitizeSql (sql : string) : string :=
  match sql with
  | EmptyString => EmptyString
  | String a r => String (if bool_decide (a = ","%char) then backtick else a) (sanitizeSql r)
  end.

(** The text of [insert] for a non-empty array whose first record is [first]. *)
Definition insertSql (table : string) (first : Record) (valuesArray : list Record) : string :=
  "INSERT INTO " +:+ table +:+ " (" +:+ join "," (map protectFieldName (keys first)) +:+
  ") VALUES " +:+
  join "," (map (fun _ => "(" +:+ join "," (map (fun _ => "?") (keys first)) +:+ ")")
                valuesArray).

(** The values of [insert]: row by row, the first record's keys read in each. *)
Definition insertValues (first : Record) (valuesArray : list Record) : list JsVal :=
  flat_map (fun v => map (fun k => getProp v k) (keys first)) valuesArray.

(** The text of [update] for a first record [first] and a WhereSpec. *)
Definition updateSql (table : string) (first : Record) (where_ : Where) : string :=
  "UPDATE " +:+ table +:+ " SET " +:+
  join "," (map (fun key => protectFieldName key +:+ " = ?") (keys first))
  +:+ " WHERE " +:+ buildWhere where_.

(** The text and the parameter groups of [objectUpdate]. *)
Definition objectUpdateSql (table whereField : string) (fields : list string) : string :=
  "UPDATE " +:+ table +:+ " SET " +:+ join ", " (map (fun field_ => field_ +:+ " = ?") fields)
  +:+ " WHERE " +:+ whereField +:+ " = ?".

Definition objectUpdateGroup (whereField : string) (fields : list string) (record : Record)
  : JsVal :=
  JArr (map (fun field_ => getProp record field_) fields ++ [getProp record whereField]).

(** The text of [upsert]. *)
Definition upsertSql (table : string) (vals update : Record) : string :=
  "INSERT INTO " +:+ table +:+ " (" +:+ join "," (map protectFieldName (keys vals)) +:+
  ") VALUES (" +:+ join "," (map (fun _ => "?") (keys vals)) +:+
  ") ON DUPLICATE KEY UPDATE " +:+
  join "," (map (fun key => protectFieldName key +:+ " = ?") (keys update)).

(** The texts of the JSON helpers. *)
Definition jsonValueSql (table where_ jsonField : string) : string :=
  "SELECT JSON_VALUE(" +:+ jsonField +:+ ", ?) as value FROM " +:+ table +:+
  " WHERE " +:+ where_ +:+ " LIMIT 1".

Definition jsonExtractSql (table where_ jsonField : string) : string :=
  "SELECT JSON_EXTRACT(" +:+ jsonField +:+ ", ?) as value FROM " +:+ table +:+
  " WHERE " +:+ where_ +:+ " LIMIT 1".

Definition jsonSetSql (table where_ jsonField : string) : string :=
  "UPDATE " +:+ table +:+ " SET " +:+ jsonField +:+ " = JSON_SET(" +:+ jsonField +:+
  ", ?, ?) WHERE " +:+ where_.

Definition jsonSetArraySql (table where_ jsonField : string) (flattenedValues : list JsVal)
  : string :=
  "UPDATE " +:+ table +:+ " SET " +:+ jsonField +:+ " = JSON_SET(" +:+ jsonField +:+
  ", ?, JSON_ARRAY(" +:+ toString (JArr flattenedValues) +:+ ")) WHERE " +:+ where_.

Definition jsonSetObjectSql (table where_ jsonField : string) (flattenedValues : list JsVal)
  : string :=
  "UPDATE " +:+ table +:+ " SET " +:+ jsonField +:+ " = JSON_SET(" +:+ jsonField +:+
  ", ?, JSON_OBJECT(" +:+
  join "," (replicate (length flattenedValues / 2) "?,?") +:+ ")) WHERE " +:+ where_.

Definition jsonFindSql (table where_ jsonField : string) : string :=
  "SELECT * FROM " +:+ table +:+ " WHERE " +:+ where_ +:+
  " AND JSON_VALUE(" +:+ jsonField +:+ ", ?) = ?".

(** [`$.${path}`]. *)
Definition jsonPath (path : string) : JsVal := JStr ("$." +:+ path).

(** [a.flat()]: one level. *)
Definition flat (a : list JsVal) : list JsVal :=
  flat_map (fun e => match e with JArr l => l | _ => [e] end) a.

(** [Object.entries(v).flat()]: each key followed by its value. *)
Definition flatEntries (v : JsVal) : list JsVal :=
  flat_map (fun kv => [JStr kv.1; kv.2]) (spreadProps v).

(** [v?.value]. *)
Definition optValue (v : JsVal) : JsVal :=
  match v with
  | JObj fields => get fields "value"
  | _ => JUndefined
  end.

(** [result[0]?.value] on what [query] resolved to: the first row of an array,
    or the property [0] of a bare row. *)
Definition firstValue (result : QueryResult) : JsVal :=
  match result with
  | QRows (row :: _) _ => get row "value"
  | QRows [] _ => JUndefined
  | QRow r => optValue (get r "0")
  | QUpsert _ => JUndefined
  end.

Section Helpers.

Variable driver : Driver.

Definition upsert (table : string) (vals update : Record) : M QueryResult :=
  query driver (JStr (upsertSql table vals update)) (JArr (values vals ++ values update))
        (JArr []).

(** [delete]; [params] is the source's [params: any[] = []]. *)
Definition delete_ (table where_ : string) (params : JsVal) : M Result :=
  if negb (nonEmpty table) || negb (nonEmpty where_)
  then throw (Err "table and where is required")
  else execute driver (JStr ("DELETE FROM " +:+ table +:+ " WHERE " +:+ where_)) params [].

(** [path] is [None] for the default ['*']. *)
Definition getJsonValue (table where_ jsonField : string) (path : option string)
  : M QueryResult :=
  query driver (JStr (jsonValueSql table where_ jsonField))
        (JArr [jsonPath (default "*" path)]) (JArr []).

(** [path] is [None] for the default ['']. *)
Definition getJsonExtract (table where_ jsonField : string) (path : option string)
  : M JsVal :=
  let* result :=
    query driver (JStr (jsonExtractSql table where_ jsonField))
          (JArr [if nonEmpty (default "" path) then jsonPath (default "" path) else JStr "$"])
          (JArr []) in
  ret (firstValue result).

Definition setJsonValue (table where_ jsonField path : string) (value : JsVal)
  : M QueryResult :=
  if negb (nonEmpty where_) then throw (Err "where is required")
  else query driver (JStr (jsonSetSql table where_ jsonField))
             (JArr [jsonPath path; value]) (JArr []).

Definition setJsonObject (table where_ jsonField path : string) (value : JsVal)
  : M QueryResult :=
  if negb (nonEmpty where_) then throw (Err "where is required")
  else
    match value with
    | JArr a =>
        let flattenedValues := flat a in
        query driver (JStr (jsonSetArraySql table where_ jsonField flattenedValues))
              (JArr (jsonPath path :: flattenedValues)) (JArr [])
    | JUndefined | JNull =>
        throw (TypeError "Cannot convert undefined or null to object")
    | _ =>
        let flattenedValues := flatEntries value in
        query driver (JStr (jsonSetObjectSql table where_ jsonField flattenedValues))
              (JArr (jsonPath path :: flattenedValues)) (JArr [])
    end.

Definition findJsonValue (table where_ jsonField path : string) (value : JsVal)
  : M QueryResult :=
  let where1 := if nonEmpty where_ then where_ else "1=1" in
  query driver (JStr (jsonFindSql table where1 jsonField)) (JArr [jsonPath path; value])
        (JArr []).

(** [await this.pool.query(text)] behind the guard of the transaction methods. *)
Definition poolStatement (text : string) : M unit :=
  let* ready := poolReady in
  if negb ready then throw (Err "Pool is not initialized")
  else
    let* h := history in
    emit (PoolQuery (JStr text) JUndefined) ;;
    let* result := lift (pool_query driver h (JStr text) JUndefined) in
    ret tt.

Definition beginTransaction : M unit := poolStatement "BEGIN".
Definition commit : M unit := poolStatement "COMMIT".
Definition rollback : M unit := poolStatement "ROLLBACK".

End Helpers.

(** ** Vocabulary of the further properties *)

(** A part of a protected name is between backticks, or is made of word
    characters and is no reserved word. *)
Definition partSafe (p : string) : bool :=
  quoted p || (negb (hasNonWordChar p) && negb (isReserved (toLowerCase p))).

(** The number of [?] in a text. *)
Definition placeholders (sql : string) : nat := countChar qmark sql.

(** The events a run added to the trace. *)
Definition added (w : World) (run : World) : list Event :=
  drop (length (trace w)) (trace run).

(** The numeric ids of an array of rows are [ids]. *)
Definition hasIds (data : list Record) (ids : list Z) : Prop :=
  map (fun row => get row "id") data = map JNum ids.

(** [ids] grow strictly. *)
Definition ascending (ids : list Z) : Prop :=
  forall i j a b, (i < j)%nat -> ids !! i = Some a -> ids !! j = Some b -> a < b.

(** A client that resolves every query to one row. *)
Definition oneRowDriver (row : Record) : Driver := rowsDriver [row].

(** Every record has the key field and the same other fields as [first], in
    any order. *)
Definition uniformRecords (whereField : string) (first : Record) (vals : list Record) : Prop :=
  Forall (fun record => hasKey whereField record = true
                        /\ otherFields whereField record ≡ₚ otherFields whereField first)
         vals.

(** A client whose connection accepts a batch of [n] groups. *)
Definition batchDriver : Driver :=
  mkDriver (fun _ _ _ => Ok (DRows [] None))
           (fun _ _ _ => Ok (DUpsert (mkUpsert 0 0 0)))
           (fun _ => Ok tt)
           (fun _ _ vals => Ok (mkUpsert (match vals with
                                          | JArr groups => Z.of_nat (length groups)
                                          | _ => 0
                                          end) 0 0)).

(** Two users to update by id. *)
Definition twoUsers : ObjectUpdateOptions :=
  mkObjectUpdate "users"
    [[("id", JNum 1); ("name", JStr "John")]; [("id", JNum 2); ("name", JStr "Jane")]]
    None.

(** Two users whose fields come in different orders. *)
Definition shuffledUsers : ObjectUpdateOptions :=
  mkObjectUpdate "users"
    [[("id", JNum 1); ("name", JStr "John"); ("age", JNum 30)];
     [("age", JNum 25); ("name", JStr "Jane"); ("id", JNum 2)]]
    None.

(** The connective the chunk block uses to add its range. *)
Definition chunkJoint (p : QueryParams) : string :=
  if nonEmpty (whereText p) then " AND " else " WHERE ".


(** A world whose cache holds the two windows of 25 rows for [idsOfT]. *)
Definition cachedWorld : World :=
  mkWorld true {[ chunkKey (selectSql idsOfT) := [(JNum 1, JNum 20); (JNum 21, JNum 25)] ]} [].

(** The options object [query] sends for a statement text when it has switched
    to named placeholders. *)
Definition namedQuery (sql : string) : JsVal :=
  JObj [("sql", JStr sql); ("namedPlaceholders", JBool true)].

(** A request for every row of table [t] with nothing else set:
    [{ from: 't' }]. *)
Definition allOfT : QueryParams :=
  mkQueryParams None None (One "t") None None None JUndefined
                None None None None None None JUndefined None.

(** * Properties *)

(** ** Strings *)

Section StringFacts.

Lemma app_cons (a : ascii) (s t : string) : String a s +:+ t = String a (s +:+ t).
Proof. reflexivity. Qed.

Lemma app_empty_l (t : string) : EmptyString +:+ t = t.
Proof. reflexivity. Qed.

Lemma includes_app c s t : includes c (s +:+ t) = includes c s || includes c t.
Proof.
  induction s as [|a s IH]; [reflexivity|].
  rewrite app_cons. simpl. rewrite IH. now rewrite orb_assoc.
Qed.

Lemma countChar_app c s t : countChar c (s +:+ t) = (countChar c s + countChar c t)%nat.
Proof.
  induction s as [|a s IH]; [reflexivity|].
  rewrite app_cons. simpl. rewrite IH. lia.
Qed.

Lemma startsWith_app c s t : startsWith c s = true -> startsWith c (s +:+ t) = true.
Proof. destruct s; [discriminate|]. rewrite app_cons. auto. Qed.

Lemma endsWith_snoc c s : endsWith c (s +:+ String c EmptyString) = true.
Proof.
  induction s as [|a s IH].
  - simpl. now apply bool_decide_eq_true.
  - rewrite app_cons. simpl.
    destruct (s +:+ String c EmptyString) eqn:E; [|exact IH].
    destruct s; discriminate.
Qed.

Lemma split_nonempty c s : split c s <> [].
Proof.
  destruct s as [|a s]; simpl; [discriminate|].
  case_bool_decide; [discriminate|]. now destruct (split c s).
Qed.

(** A piece of [split c s] holds no [c]. *)
Lemma split_pieces c s : Forall (fun p => includes c p = false) (split c s).
Proof.
  induction s as [|a s IH]; simpl.
  - now repeat constructor.
  - case_bool_decide as Ha.
    + constructor; [reflexivity | exact IH].
    + destruct (split c s) as [|h t].
      * repeat constructor. simpl. now rewrite bool_decide_eq_false_2.
      * inversion IH; subst. constructor; [|assumption].
        simpl. now rewrite bool_decide_eq_false_2.
Qed.

Lemma split_without c s : includes c s = false -> split c s = [s].
Proof.
  induction s as [|a s IH]; simpl; [reflexivity|].
  intros H. apply orb_false_elim in H as [Ha Hs].
  rewrite Ha, (IH Hs). reflexivity.
Qed.

Lemma split_app_sep c x rest :
  includes c x = false ->
  split c (x +:+ String c EmptyString +:+ rest) = x :: split c rest.
Proof.
  induction x as [|a x IHx]; intros Hx.
  - rewrite app_empty_l, app_cons, app_empty_l. simpl.
    now rewrite bool_decide_eq_true_2 by reflexivity.
  - simpl in Hx. apply orb_false_elim in Hx as [Ha Hx].
    rewrite app_cons. simpl. rewrite Ha, (IHx Hx). reflexivity.
Qed.

(** Splitting what was joined from pieces without the separator. *)
Lemma split_join c (l : list string) :
  l <> [] ->
  Forall (fun p => includes c p = false) l ->
  split c (join (String c EmptyString) l) = l.
Proof.
  induction l as [|x l IH]; [congruence|].
  intros _ Hall. inversion Hall as [|? ? Hx Hl]; subst.
  destruct l as [|y l].
  - simpl. now apply split_without.
  - change (join (String c EmptyString) (x :: y :: l))
      with (x +:+ String c EmptyString +:+ join (String c EmptyString) (y :: l)).
    rewrite (split_app_sep c x _ Hx). f_equal. apply IH; [discriminate | exact Hl].
Qed.

Lemma includes_join_many c (x y : string) (l : list string) :
  includes c (join (String c EmptyString) (x :: y :: l)) = true.
Proof.
  change (join (String c EmptyString) (x :: y :: l))
    with (x +:+ String c EmptyString +:+ join (String c EmptyString) (y :: l)).
  rewrite !includes_app. simpl. rewrite bool_decide_eq_true_2 by reflexivity.
  now rewrite orb_true_r.
Qed.

Lemma split_many c s :
  includes c s = true -> exists x y l, split c s = x :: y :: l.
Proof.
  induction s as [|a s IH]; simpl; [discriminate|].
  case_bool_decide as Ha; simpl.
  - intros _. destruct (split c s) as [|h t] eqn:E; [now apply split_nonempty in E|].
    eauto.
  - intros H. destruct (IH H) as (x & y & l & E). rewrite E. eauto.
Qed.

End StringFacts.

(** ** IdentifierProtector *)

Section Protect.

Lemma quoted_quote s : quoted (quote s) = true.
Proof.
  unfold quoted, quote. simpl.
  pose proof (endsWith_snoc backtick s) as H.
  destruct (s +:+ String backtick EmptyString); [reflexivity | exact H].
Qed.

Lemma includes_quote s : includes dot (quote s) = includes dot s.
Proof.
  unfold quote. simpl. rewrite includes_app. simpl. now rewrite orb_false_r.
Qed.

Lemma protect_at_part d s : includes dot s = false -> protectFieldName_at d s = protectPart s.
Proof.
  intros H. unfold protectPart, quoted.
  destruct d; simpl; [reflexivity|]. now rewrite H.
Qed.

Lemma protectPart_no_dot s : includes dot s = false -> includes dot (protectPart s) = false.
Proof.
  intros H. unfold protectPart.
  destruct (quoted s); [exact H|].
  destruct (_ || _); [now rewrite includes_quote | exact H].
Qed.

Lemma protectPart_idem s : protectPart (protectPart s) = protectPart s.
Proof.
  assert (H : protectPart s = s \/ protectPart s = quote s).
  { unfold protectPart. destruct (quoted s); [now left|]. destruct (_ || _); auto. }
  destruct H as [H|H]; rewrite H; [exact H|].
  unfold protectPart. now rewrite quoted_quote.
Qed.

(** The body of the source's function, with its recursive calls. *)
Lemma protectFieldName_unfold fieldName :
  protectFieldName fieldName =
  if startsWith backtick fieldName && endsWith backtick fieldName then fieldName
  else if includes dot fieldName
       then join "." (map protectFieldName (split dot fieldName))
       else if isReserved (toLowerCase fieldName) || hasNonWordChar fieldName
            then quote fieldName
            else fieldName.
Proof.
  unfold protectFieldName at 1. simpl.
  destruct (_ && _); [reflexivity|].
  destruct (includes dot fieldName); [|reflexivity].
  f_equal. apply map_ext_Forall.
  eapply Forall_impl; [apply split_pieces|].
  intros p Hp. simpl in Hp. unfold protectFieldName.
  now rewrite !protect_at_part.
Qed.

Lemma protectFieldName_part s : includes dot s = false -> protectFieldName s = protectPart s.
Proof. apply protect_at_part. Qed.

Lemma protectFieldName_dotted s :
  quoted s = false -> includes dot s = true ->
  protectFieldName s = join "." (map protectPart (split dot s)).
Proof.
  intros Q D. rewrite protectFieldName_unfold. fold (quoted s). rewrite Q, D.
  f_equal. apply map_ext_Forall.
  eapply Forall_impl; [apply split_pieces|].
  intros p Hp. now apply protectFieldName_part.
Qed.

(** C6.  Protecting twice is protecting once: for every identifier [x],
    [protectFieldName (protectFieldName x) = protectFieldName x]; this covers
    names already between backticks, dotted paths (protected part by part),
    reserved words and names with characters outside [[A-Za-z0-9_]]. *)
Theorem protectFieldName_idempotent (x : string) :
  protectFieldName (protectFieldName x) = protectFieldName x.
Proof.
  destruct (quoted x) eqn:Q.
  { assert (E : protectFieldName x = x).
    { rewrite protectFieldName_unfold. fold (quoted x). now rewrite Q. }
    now rewrite !E. }
  destruct (includes dot x) eqn:D.
  - rewrite (protectFieldName_dotted x Q D).
    set (parts := map protectPart (split dot x)).
    assert (Hparts : Forall (fun p => includes dot p = false) parts).
    { unfold parts. apply Forall_map. eapply Forall_impl; [apply split_pieces|].
      intros p Hp. now apply protectPart_no_dot. }
    destruct (quoted (join "." parts)) eqn:Q'.
    { rewrite protectFieldName_unfold. fold (quoted (join "." parts)). now rewrite Q'. }
    assert (D' : includes dot (join "." parts) = true).
    { destruct (split_many dot x D) as (a & b & l & E).
      unfold parts. rewrite E. simpl map. apply includes_join_many. }
    rewrite (protectFieldName_dotted _ Q' D').
    rewrite split_join; [|unfold parts; destruct (split dot x) eqn:E;
                           [now apply split_nonempty in E | discriminate] | exact Hparts].
    f_equal. unfold parts. rewrite map_map. apply map_ext. intros p. apply protectPart_idem.
  - rewrite (protectFieldName_part x D).
    rewrite protectFieldName_part by now apply protectPart_no_dot.
    apply protectPart_idem.
Qed.

End Protect.

(** ** WhereCompiler *)

Section WhereCompiler.

Lemma lookup_map {A B} (f : A -> B) (l : list A) (i : nat) :
  map f l !! i = f <$> (l !! i).
Proof. revert i. induction l as [|x l IH]; intros [|i]; simpl; auto. Qed.

Lemma join_cons sep x y (l : list string) :
  join sep (x :: y :: l) = x +:+ sep +:+ join sep (y :: l).
Proof. reflexivity. Qed.

Lemma join_head sep a h (t : list string) :
  join sep (String a h :: t) = String a (join sep (h :: t)).
Proof. destruct t; reflexivity. Qed.

Lemma join_split c s : join (String c EmptyString) (split c s) = s.
Proof.
  induction s as [|a s IH]; [reflexivity|]. simpl.
  case_bool_decide as Ha.
  - subst a. destruct (split c s) as [|h t] eqn:E; [now apply split_nonempty in E|].
    rewrite join_cons, IH. reflexivity.
  - destruct (split c s) as [|h t] eqn:E; [now apply split_nonempty in E|].
    rewrite join_head, IH. reflexivity.
Qed.

(** Occurrences of a character in a joined list, the separator holding none. *)
Lemma countChar_join c sep (l : list string) :
  countChar c sep = 0%nat ->
  countChar c (join sep l) = sum_list (map (countChar c) l).
Proof.
  intros Hsep. induction l as [|x l IH]; [reflexivity|].
  destruct l as [|y l].
  - simpl. lia.
  - rewrite join_cons, !countChar_app, IH, Hsep. simpl. lia.
Qed.

Lemma countChar_quote c s : c <> backtick -> countChar c (quote s) = countChar c s.
Proof.
  intros Hc. unfold quote. simpl. rewrite countChar_app. simpl.
  rewrite !bool_decide_eq_false_2 by congruence. lia.
Qed.

Lemma countChar_protectPart c s : c <> backtick -> countChar c (protectPart s) = countChar c s.
Proof.
  intros Hc. unfold protectPart. destruct (quoted s); [reflexivity|].
  destruct (_ || _); [now apply countChar_quote | reflexivity].
Qed.

(** Protection adds backticks only. *)
Lemma countChar_protectFieldName s :
  countChar qmark (protectFieldName s) = countChar qmark s.
Proof.
  assert (Hq : qmark <> backtick) by discriminate.
  destruct (quoted s) eqn:Q.
  { rewrite protectFieldName_unfold. fold (quoted s). now rewrite Q. }
  destruct (includes dot s) eqn:D.
  - rewrite (protectFieldName_dotted s Q D).
    rewrite <- (join_split dot s) at 2.
    change (String dot EmptyString) with "."%string.
    rewrite !countChar_join by reflexivity. f_equal.
    rewrite map_map. apply map_ext. intros p. now apply countChar_protectPart.
  - rewrite (protectFieldName_part s D). now apply countChar_protectPart.
Qed.

Lemma forallb_noPlaceholder (l : list string) :
  forallb noPlaceholder l = true -> sum_list (map (countChar qmark) l) = 0%nat.
Proof.
  induction l as [|x l IH]; simpl; [reflexivity|].
  intros H. apply andb_prop in H as [Hx Hl].
  apply bool_decide_eq_true in Hx. rewrite Hx, (IH Hl). reflexivity.
Qed.

(** One placeholder for each key, when no key holds a question mark. *)
Lemma countChar_equalityClauses (r : Record) :
  forallb noPlaceholder (keys r) = true ->
  countChar qmark (equalityClauses r) = length r.
Proof.
  unfold equalityClauses, keys. rewrite countChar_join by reflexivity.
  induction r as [|[k v] r IH]; simpl; [reflexivity|].
  intros H. apply andb_prop in H as [Hk Hr].
  apply bool_decide_eq_true in Hk.
  rewrite countChar_app, countChar_protectFieldName, Hk, (IH Hr). reflexivity.
Qed.

Lemma countChar_groupClause (i : RecordItem) :
  itemPlaceholderFree i = true ->
  countChar qmark (groupClause i) = length (itemValues i).
Proof.
  destruct i as [r| |]; [|reflexivity..].
  unfold groupClause, itemValues, itemPlaceholderFree. intros H.
  rewrite !countChar_app, (countChar_equalityClauses r H).
  unfold values. rewrite length_map. simpl. lia.
Qed.

Lemma sum_filter_nonEmpty (l : list string) :
  sum_list (map (countChar qmark) (filter (fun s => nonEmpty s = true) l))
  = sum_list (map (countChar qmark) l).
Proof.
  induction l as [|x l IH]; [reflexivity|].
  rewrite filter_cons. destruct x as [|a x].
  - rewrite decide_False by discriminate. simpl. exact IH.
  - rewrite decide_True by reflexivity. simpl in *. now rewrite IH.
Qed.

Lemma countChar_groups (l : list RecordItem) :
  forallb itemPlaceholderFree l = true ->
  sum_list (map (countChar qmark) (map groupClause l)) = length (flat_map itemValues l).
Proof.
  induction l as [|i l IH]; simpl; [reflexivity|].
  intros H. apply andb_prop in H as [Hi Hl].
  rewrite length_app, (countChar_groupClause i Hi), (IH Hl). reflexivity.
Qed.

Lemma countChar_itemToString (l : list RecordItem) :
  sum_list (map (countChar qmark) (map itemToString l)) = 0%nat.
Proof.
  induction l as [|i l IH]; [reflexivity|].
  simpl map. simpl sum_list. rewrite IH. now destruct i.
Qed.

(** The groups that survive [filter(Boolean)] are those of the mappings. *)
Lemma filter_groupClause (l : list RecordItem) :
  filter (fun s => nonEmpty s = true) (map groupClause l)
  = map (fun r => "(" +:+ equalityClauses r +:+ ")") (mappingsOf l).
Proof.
  induction l as [|i l IH]; [reflexivity|].
  change (map groupClause (i :: l)) with (groupClause i :: map groupClause l).
  rewrite filter_cons. destruct i as [r| |]; unfold groupClause at 1.
  - rewrite decide_True by reflexivity. unfold groupClause at 1.
    rewrite IH. reflexivity.
  - rewrite decide_False by discriminate. exact IH.
  - rewrite decide_False by discriminate. exact IH.
Qed.

Lemma flat_map_itemValues (l : list RecordItem) :
  flat_map itemValues l = valuesOfGroups l.
Proof.
  unfold valuesOfGroups. induction l as [|i l IH]; [reflexivity|].
  destruct i as [r| |]; simpl; now rewrite IH.
Qed.

(** C1 as stated fails: a raw fragment is returned verbatim and brings no
    parameter, so its placeholders are not matched. *)
Lemma parity_fails_on_raw_string :
  countChar qmark (buildWhere (WString "id = ?"))
  <> length (buildWhereParams (WString "id = ?") JUndefined).
Proof. vm_compute. discriminate. Qed.

(** C1, amended.  With no parameter override, for every WhereSpec of the four
    shapes whose raw fragments and whose keys hold no question mark, the
    number of [?] in the text of [buildWhere] is the length of the vector of
    [buildWhereParams]. *)
Theorem placeholder_parity (where_ : Where) :
  placeholderFree where_ = true ->
  countChar qmark (buildWhere where_) = length (buildWhereParams where_ JUndefined).
Proof.
  intros H. unfold buildWhere, buildWhereParams.
  destruct (whereFalsy where_) eqn:F; [reflexivity|].
  destruct where_ as [s|l|r|l]; simpl in H.
  - apply bool_decide_eq_true in H. exact H.
  - destruct l as [|x l]; [reflexivity|].
    rewrite countChar_join by reflexivity. now apply forallb_noPlaceholder.
  - rewrite (countChar_equalityClauses r H). unfold values. now rewrite length_map.
  - destruct l as [|first l]; [reflexivity|].
    destruct (itemIsObject first).
    + rewrite countChar_join by reflexivity.
      rewrite sum_filter_nonEmpty. now apply countChar_groups.
    + rewrite countChar_join by reflexivity. apply countChar_itemToString.
Qed.

Lemma placeholder_parity_witness :
  countChar qmark
    (buildWhere (WRecords [IRec [("a", JNum 1); ("t.order", JNum 2)]; INull; IRec [("b", JNull)]]))
  = length
    (buildWhereParams (WRecords [IRec [("a", JNum 1); ("t.order", JNum 2)]; INull; IRec [("b", JNull)]])
       JUndefined).
Proof. apply placeholder_parity. reflexivity. Defined.

(** C4.  For a field-to-value mapping and no parameter override, the text is
    [protectFieldName key] followed by [" = ?"] for each key in enumeration
    order, joined with [" AND "], and the parameters are the mapping's values
    in the same order: the i-th parameter is the value of the i-th key.
    Compiling [{a: 1, b: 2}] gives ["a = ? AND b = ?"] with [[1, 2]]. *)
Theorem buildWhere_mapping (r : Record) :
  buildWhere (WRecord r)
  = join " AND " (map (fun key => protectFieldName key +:+ " = ?") (keys r))
  /\ buildWhereParams (WRecord r) JUndefined = values r
  /\ length (buildWhereParams (WRecord r) JUndefined) = length (keys r)
  /\ (forall (i : nat) key v, r !! i = Some (key, v) ->
        keys r !! i = Some key /\ buildWhereParams (WRecord r) JUndefined !! i = Some v)
  /\ buildWhere (WRecord [("a", JNum 1); ("b", JNum 2)]) = "a = ? AND b = ?"
  /\ buildWhereParams (WRecord [("a", JNum 1); ("b", JNum 2)]) JUndefined = [JNum 1; JNum 2].
Proof.
  assert (P : buildWhereParams (WRecord r) JUndefined = values r) by reflexivity.
  split; [reflexivity|]. split; [exact P|]. rewrite P.
  split; [unfold values, keys; now rewrite !length_map|].
  split; [|split; reflexivity].
  intros i key v H. unfold keys, values. rewrite !lookup_map, H. split; reflexivity.
Qed.

Lemma buildWhere_mapping_witness :
  keys [("a", JNum 1); ("b", JNum 2)] !! 1%nat = Some "b"
  /\ buildWhereParams (WRecord [("a", JNum 1); ("b", JNum 2)]) JUndefined !! 1%nat
     = Some (JNum 2).
Proof.
  exact (proj1 (proj2 (proj2 (proj2 (buildWhere_mapping [("a", JNum 1); ("b", JNum 2)]))))
           1%nat "b" (JNum 2) eq_refl).
Defined.

(** C5 as stated fails: a list whose first entry is [undefined] is not
    compiled as a list of mappings. *)
Lemma list_of_mappings_fails_on_undefined_head :
  buildWhere (WRecords [IUndefined; IRec [("a", JNum 1)]])
    <> orOfGroups [IUndefined; IRec [("a", JNum 1)]]
  /\ buildWhereParams (WRecords [IUndefined; IRec [("a", JNum 1)]]) JUndefined
    <> valuesOfGroups [IUndefined; IRec [("a", JNum 1)]].
Proof. split; vm_compute; discriminate. Qed.

(** C5, amended.  For every non-empty list of mappings whose first entry is a
    mapping or [null], and no parameter override, [buildWhere] gives each
    mapping's AND-joined [protectFieldName key = ?] clauses between
    parentheses, joined with [" OR "], the [null] and [undefined] entries
    skipped, and [buildWhereParams] gives the values of the mappings in
    mapping order, then key order. *)
Theorem buildWhere_list_of_mappings (first : RecordItem) (rest : list RecordItem) :
  itemIsObject first = true ->
  buildWhere (WRecords (first :: rest)) = orOfGroups (first :: rest)
  /\ buildWhereParams (WRecords (first :: rest)) JUndefined = valuesOfGroups (first :: rest).
Proof.
  intros H. unfold buildWhere, buildWhereParams. simpl whereFalsy. cbv iota.
  rewrite H. split.
  - unfold orOfGroups. now rewrite filter_groupClause.
  - apply flat_map_itemValues.
Qed.

Lemma buildWhere_list_of_mappings_witness :
  buildWhere (WRecords [INull; IRec [("a", JNum 1); ("order", JNum 2)]; IUndefined; IRec [("b", JNum 3)]])
  = "(a = ? AND `order` = ?) OR (b = ?)"
  /\ buildWhereParams
       (WRecords [INull; IRec [("a", JNum 1); ("order", JNum 2)]; IUndefined; IRec [("b", JNum 3)]])
       JUndefined
  = [JNum 1; JNum 2; JNum 3].
Proof.
  exact (buildWhere_list_of_mappings INull
           [IRec [("a", JNum 1); ("order", JNum 2)]; IUndefined; IRec [("b", JNum 3)]]
           eq_refl).
Defined.

End WhereCompiler.

(** ** ChunkPlanner *)

Section ChunkPlanner.

(** There is a block [k] exactly when position [20 + 1000 k] exists. *)
Lemma bulkWindows_spec (n k : nat) : (k < bulkWindows n)%nat <-> (20 + 1000 * k < n)%nat.
Proof.
  unfold bulkWindows. split; intros H.
  - destruct (Nat.le_gt_cases n (20 + 1000 * k)) as [Hle|]; [|assumption].
    exfalso. apply (Nat.lt_irrefl k). eapply Nat.lt_le_trans; [exact H|].
    apply Nat.lt_succ_r. apply Nat.Div0.div_lt_upper_bound. lia.
  - apply Nat.div_le_lower_bound; lia.
Qed.

Lemma bulkWindows_le (n : nat) : (bulkWindows n <= n)%nat.
Proof.
  destruct (Nat.le_gt_cases (bulkWindows n) n) as [|H]; [assumption|].
  apply bulkWindows_spec in H. lia.
Qed.

(** The loop emits the blocks from [k] on. *)
Lemma chunkLoop_windows (data : list Record) (fuel k : nat) :
  (bulkWindows (length data) <= fuel + k)%nat ->
  chunkLoop fuel data (20 + 1000 * k)
  = map (idsOf data)
        (map (bulkWindow (length data)) (seq k (bulkWindows (length data) - k))).
Proof.
  revert k. induction fuel as [|fuel IH]; intros k Hfuel.
  - simpl. replace (bulkWindows (length data) - k)%nat with 0%nat by lia. reflexivity.
  - cbn [chunkLoop]. destruct (Nat.ltb_spec (20 + 1000 * k) (length data)) as [Hlt|Hge].
    + assert (Hk : (k < bulkWindows (length data))%nat) by now apply bulkWindows_spec.
      replace (bulkWindows (length data) - k)%nat
        with (S (bulkWindows (length data) - S k)) by lia.
      cbn [seq map]. f_equal.
      * unfold idsOf, bulkWindow. cbn [fst snd]. f_equal. f_equal.
        destruct (Nat.ltb_spec (20 + 1000 * k + 1000 - 1) (length data - 1)); lia.
      * replace (20 + 1000 * k + 1000)%nat with (20 + 1000 * S k)%nat by lia.
        apply IH. lia.
    + assert (Hk : ~ (k < bulkWindows (length data))%nat).
      { rewrite bulkWindows_spec. lia. }
      replace (bulkWindows (length data) - k)%nat with 0%nat by lia. reflexivity.
Qed.

(** The table built from an array of rows is the ids at the windows. *)
Lemma buildChunkTable_windows (data : list Record) (meta : option (list ColumnDef)) :
  (1 <= length data)%nat ->
  idAt data 0 <> JUndefined ->
  buildChunkTable (QRows data meta)
  = Ok (map (idsOf data) (chunkWindows (length data))).
Proof.
  intros Hlen Hid. destruct data as [|row0 rest]; [simpl in Hlen; lia|].
  pose proof (chunkLoop_windows (row0 :: rest) (length (row0 :: rest)) 0) as L.
  rewrite Nat.sub_0_r in L.
  replace (20 + 1000 * 0)%nat with 20%nat in L by reflexivity.
  specialize (L ltac:(pose proof (bulkWindows_le (length (row0 :: rest))); lia)).
  unfold buildChunkTable. unfold idAt in Hid. simpl in Hid.
  destruct (get row0 "id") eqn:E; try congruence;
    (f_equal; unfold chunkWindows; cbn [map]; rewrite L; f_equal;
     unfold idsOf; cbn [fst snd]; f_equal; f_equal;
     destruct (Nat.ltb_spec 20 (length (row0 :: rest))); lia).
Qed.

Lemma tiles_bulk (n k : nat) :
  (20 + 1000 * k <= n)%nat ->
  (k <= bulkWindows n)%nat ->
  tiles (map (bulkWindow n) (seq k (bulkWindows n - k))) (20 + 1000 * k)
        (Nat.max n (20 + 1000 * k)).
Proof.
  intros Hle Hk. remember (bulkWindows n - k)%nat as m eqn:Hm.
  revert k Hle Hk Hm. induction m as [|m IH]; intros k Hle Hk Hm.
  - simpl. assert (~ (k < bulkWindows n)%nat) by lia.
    rewrite bulkWindows_spec in H. lia.
  - assert (Hlt : (k < bulkWindows n)%nat) by lia.
    pose proof (proj1 (bulkWindows_spec n k) Hlt) as Hpos.
    cbn [seq map tiles]. unfold bulkWindow at 1. repeat split; [lia|].
    destruct (Nat.le_gt_cases (20 + 1000 * S k) n) as [Hnext|Hlast].
    + replace (S (Nat.min (20 + 1000 * (k + 1)) n - 1)) with (20 + 1000 * S k)%nat by lia.
      replace (Nat.max n (20 + 1000 * k)) with (Nat.max n (20 + 1000 * S k)) by lia.
      apply IH; lia.
    + assert (Hend : ~ (S k < bulkWindows n)%nat) by (rewrite bulkWindows_spec; lia).
      assert (m = 0%nat) by lia. subst m. cbn [seq map tiles]. lia.
Qed.

(** The windows tile the positions [0 .. n - 1]. *)
Lemma chunkWindows_tiles (n : nat) : (1 <= n)%nat -> tiles (chunkWindows n) 0 n.
Proof.
  intros Hn. unfold chunkWindows. cbn [tiles]. repeat split; [lia|].
  destruct (Nat.le_gt_cases 20 n) as [Hbig|Hsmall].
  - pose proof (tiles_bulk n 0 ltac:(lia) ltac:(lia)) as T.
    rewrite Nat.sub_0_r in T.
    replace (S (Nat.min 20 n - 1)) with (20 + 1000 * 0)%nat by lia.
    replace (Nat.max n (20 + 1000 * 0)) with n in T by lia. exact T.
  - assert (H0 : ~ (0 < bulkWindows n)%nat) by (rewrite bulkWindows_spec; lia).
    replace (bulkWindows n) with 0%nat by lia. cbn [seq map tiles]. lia.
Qed.

(** Tiling windows give every position exactly one window. *)
Lemma tiles_cover (ws : list (nat * nat)) (start stop pos : nat) :
  tiles ws start stop -> (start <= pos < stop)%nat ->
  exists k a b, ws !! k = Some (a, b) /\ (a <= pos <= b)%nat /\
    forall k' a' b', ws !! k' = Some (a', b') -> (a' <= pos <= b')%nat -> k' = k.
Proof.
  revert start. induction ws as [|[a b] ws IH]; intros start T Hpos.
  - simpl in T. lia.
  - destruct T as (Ha & Hab & T). subst a.
    assert (Hlow : forall k' a' b', ws !! k' = Some (a', b') -> (S b <= a')%nat).
    { clear IH Hpos. revert T. generalize (S b) as s.
      induction ws as [|[c d] ws IHws]; intros s T k' a' b' Hk'; [discriminate|].
      destruct T as (Hc & Hcd & T). subst c. destruct k' as [|k'].
      - simpl in Hk'. injection Hk' as <- <-. lia.
      - simpl in Hk'. specialize (IHws _ T _ _ _ Hk'). lia. }
    destruct (Nat.le_gt_cases pos b) as [Hin|Hout].
    + exists 0%nat, start, b. repeat split; try lia.
      intros [|k'] a' b' Hk' Hr; [reflexivity|].
      simpl in Hk'. specialize (Hlow _ _ _ Hk'). lia.
    + destruct (IH (S b) T ltac:(lia)) as (k & a & c & Hk & Hr & Huniq).
      exists (S k), a, c. repeat split; try assumption; try lia.
      intros [|k'] a' b' Hk' Hr'.
      * simpl in Hk'. injection Hk' as <- <-. lia.
      * simpl in Hk'. f_equal. now apply (Huniq k' a' b').
Qed.

Lemma chunkWindows_length (n : nat) : length (chunkWindows n) = S (bulkWindows n).
Proof. unfold chunkWindows. simpl. now rewrite length_map, length_seq. Qed.

(** Window [k >= 1] starts at [20 + 1000 (k - 1)]; it spans [1000] positions
    unless it is the last one. *)
Lemma chunkWindows_bulk (n k : nat) :
  (1 <= k < length (chunkWindows n))%nat ->
  exists b, chunkWindows n !! k = Some ((20 + 1000 * (k - 1))%nat, b) /\
    (b < n)%nat /\
    ((k < length (chunkWindows n) - 1)%nat -> (b - (20 + 1000 * (k - 1)) + 1 = 1000)%nat).
Proof.
  rewrite chunkWindows_length. intros [Hk1 Hk2].
  destruct k as [|k]; [lia|].
  change (chunkWindows n !! S k) with (map (bulkWindow n) (seq 0 (bulkWindows n)) !! k).
  assert (Hk : (k < bulkWindows n)%nat) by lia.
  pose proof (proj1 (bulkWindows_spec n k) Hk) as Hpos.
  eexists. split.
  - rewrite lookup_map, lookup_seq_lt by exact Hk. cbn [fmap option_fmap option_map].
    unfold bulkWindow. replace (S k - 1)%nat with k by lia. reflexivity.
  - split; [lia|]. intros Hnext.
    assert (Hk' : (S k < bulkWindows n)%nat) by lia.
    apply bulkWindows_spec in Hk'. lia.
Qed.

End ChunkPlanner.

(** ** Running the methods *)

Section Methods.

Variable driver : Driver.

(** [query] on a statement text with positional values: one call to the
    client, on the text alone. *)
Lemma query_text (sql : string) (vals params : JsVal) (w : World) :
  pool w = true ->
  isPlainObject vals = false ->
  spreadProps params = [] ->
  query driver (JStr sql) vals params w
  = match pool_query driver (trace w) (baseQuery sql) vals with
    | Ok result => (Ok (resolved sql result), afterCall w (PoolQuery (baseQuery sql) vals))
    | Throw e => (Throw e, afterCall w (PoolQuery (baseQuery sql) vals))
    end.
Proof.
  intros Hpool Hvals Hparams. unfold query, bind, poolReady, history, emit, lift, ret.
  rewrite Hpool, Hparams. cbn [negb].
  change (withSql sql []) with (baseQuery sql).
  unfold baseQuery at 1. change (get [("sql", JStr sql)] "sql") with (JStr sql).
  cbv iota. rewrite Hvals, andb_false_r. unfold afterCall. rewrite Hpool.
  destruct (pool_query driver (trace w) (baseQuery sql) vals) as [[rows meta|u]|e];
    [|reflexivity..].
  destruct rows as [|row [|row' rows]]; try reflexivity.
  cbn [resolved]. now destruct (limitOne sql).
Qed.

(** C2, the failing path.  When the base statement matches [limit 1] and one
    row comes back, [query] hands [getChunk] that row bare, not an array of
    [N = 1] rows.  [data[0]] is then [undefined] (the row has no column named
    [0]), and reading its [id] raises a [TypeError] after the one query: no
    window list is computed and none is cached, where the property has the
    list of one window covering position [0]. *)
Theorem getChunk_single_row_unwrapped (sql : string) (chunk : Chunk) (w : World)
    (row : Record) (meta : option (list Column)) :
  pool w = true ->
  cache w !! chunkKey sql = None ->
  pool_query driver (trace w) (baseQuery sql) JUndefined = Ok (DRows [row] meta) ->
  limitOne sql = true ->
  get row "0" = JUndefined ->
  getChunk driver sql chunk w
  = (Throw (TypeError "Cannot read properties of undefined (reading 'id')"),
     afterCall w (PoolQuery (baseQuery sql) JUndefined))
  /\ cache (getChunk driver sql chunk w).2 !! chunkKey sql = None.
Proof.
  intros Hpool Hmiss Hrows Hlimit Hzero.
  assert (E : getChunk driver sql chunk w
              = (Throw (TypeError "Cannot read properties of undefined (reading 'id')"),
                 afterCall w (PoolQuery (baseQuery sql) JUndefined))).
  { unfold getChunk, bind at 1, cacheGet. fold (chunkKey sql). rewrite Hmiss.
    unfold bind at 1. unfold bind at 1.
    rewrite (query_text sql JUndefined (JArr []) w Hpool eq_refl eq_refl), Hrows.
    cbn [resolved]. rewrite Hlimit. reflexivity. }
  rewrite E. split; [reflexivity | exact Hmiss].
Qed.

(** The table [getChunk] caches on a miss. *)
Lemma getChunk_miss (sql : string) (chunk : Chunk) (w : World) (data : list Record)
    (meta : option (list Column)) :
  pool w = true ->
  cache w !! chunkKey sql = None ->
  pool_query driver (trace w) (baseQuery sql) JUndefined = Ok (DRows data meta) ->
  (1 <= length data)%nat ->
  idAt data 0 <> JUndefined ->
  (length data = 1%nat -> limitOne sql = false) ->
  getChunk driver sql chunk w
  = (lookupChunk (map (idsOf data) (chunkWindows (length data))) chunk,
     mkWorld (pool w)
             (<[chunkKey sql := map (idsOf data) (chunkWindows (length data))]> (cache w))
             (trace w ++ [PoolQuery (baseQuery sql) JUndefined])).
Proof.
  intros Hpool Hmiss Hrows Hlen Hid Hone.
  unfold getChunk, bind at 1, cacheGet. fold (chunkKey sql). rewrite Hmiss.
  unfold bind at 1. unfold bind at 1.
  rewrite (query_text sql JUndefined (JArr []) w Hpool eq_refl eq_refl), Hrows.
  assert (R : resolved sql (DRows data meta) = QRows data (option_map getColumnDefs meta)).
  { unfold resolved. destruct data as [|row [|row' rest]]; try reflexivity.
    now rewrite (Hone eq_refl). }
  rewrite R. unfold bind at 1, lift at 1.
  rewrite (buildChunkTable_windows data _ Hlen Hid).
  reflexivity.
Qed.

(** X28.  For every base statement whose result reaches [getChunk] as an
    array of [N >= 1] rows with ids (on a cache miss; a single row of a
    statement matching [limit 1] is not an array), the window list that
    [getChunk] computes and caches is the ids at the ends of windows that
    cover the positions [0 .. N - 1] without gap or overlap: every position
    lies in exactly one window; window 0 spans the first [min 20 N]
    positions; window [k >= 1] starts at position [20 + 1000 (k - 1)] and
    spans exactly [1000] positions unless it is the last. *)
Theorem getChunk_windows_partition (sql : string) (chunk : Chunk) (w : World)
    (data : list Record) (meta : option (list Column)) :
  pool w = true ->
  cache w !! chunkKey sql = None ->
  pool_query driver (trace w) (baseQuery sql) JUndefined = Ok (DRows data meta) ->
  (1 <= length data)%nat ->
  idAt data 0 <> JUndefined ->
  (length data = 1%nat -> limitOne sql = false) ->
  let N := length data in
  let ws := chunkWindows N in
  cache (getChunk driver sql chunk w).2 !! chunkKey sql = Some (map (idsOf data) ws)
  /\ tiles ws 0 N
  /\ (forall pos, (pos < N)%nat ->
        exists k a b, ws !! k = Some (a, b) /\ (a <= pos <= b)%nat /\
          forall k' a' b', ws !! k' = Some (a', b') -> (a' <= pos <= b')%nat -> k' = k)
  /\ ws !! 0%nat = Some (0%nat, (Nat.min 20 N - 1)%nat)
  /\ (forall k, (1 <= k < length ws)%nat ->
        exists b, ws !! k = Some ((20 + 1000 * (k - 1))%nat, b) /\ (b < N)%nat /\
          ((k < length ws - 1)%nat -> (b - (20 + 1000 * (k - 1)) + 1 = 1000)%nat)).
Proof.
  intros Hpool Hmiss Hrows Hlen Hid Hone N ws.
  rewrite (getChunk_miss sql chunk w data meta Hpool Hmiss Hrows Hlen Hid Hone).
  cbn [snd cache]. rewrite lookup_insert_eq.
  pose proof (chunkWindows_tiles N Hlen) as T.
  split; [reflexivity|]. split; [exact T|]. split.
  - intros pos Hpos. apply (tiles_cover ws 0 N pos T). lia.
  - split; [reflexivity|]. intros k Hk. now apply chunkWindows_bulk.
Qed.

End Methods.

Lemma getChunk_single_row_unwrapped_witness :
  getChunk (rowsDriver (idRows 7 1)) (selectSql firstOfT) (ChunkIndex 0) freshWorld
  = (Throw (TypeError "Cannot read properties of undefined (reading 'id')"),
     afterCall freshWorld (PoolQuery (baseQuery (selectSql firstOfT)) JUndefined))
  /\ getChunk (rowsDriver (idRows 7 1)) (selectSql newestOfT) (ChunkIndex 0) freshWorld
     = (Throw (TypeError "Cannot read properties of undefined (reading 'id')"),
        afterCall freshWorld (PoolQuery (baseQuery (selectSql newestOfT)) JUndefined)).
Proof.
  split.
  - exact (proj1 (getChunk_single_row_unwrapped (rowsDriver (idRows 7 1))
                    (selectSql firstOfT) (ChunkIndex 0) freshWorld [("id", JNum 7)] None
                    eq_refl eq_refl eq_refl eq_refl eq_refl)).
  - exact (proj1 (getChunk_single_row_unwrapped (rowsDriver (idRows 7 1))
                    (selectSql newestOfT) (ChunkIndex 0) freshWorld [("id", JNum 7)] None
                    eq_refl eq_refl eq_refl eq_refl eq_refl)).
Defined.

Lemma getChunk_windows_partition_witness :
  cache (getChunk (rowsDriver (idRows 1 25)) "SELECT id FROM t" (ChunkIndex 1) freshWorld).2
    !! chunkKey "SELECT id FROM t"
  = Some (map (idsOf (idRows 1 25)) (chunkWindows 25)).
Proof.
  apply (getChunk_windows_partition (rowsDriver (idRows 1 25)) "SELECT id FROM t"
           (ChunkIndex 1) freshWorld (idRows 1 25) None);
    [reflexivity | reflexivity | reflexivity | vm_compute; lia | discriminate | discriminate].
Defined.

Section Select.

Variable driver : Driver.

Lemma getChunk_hit (sql : string) (chunk : Chunk) (w : World) (t : ChunkTable) :
  cache w !! chunkKey sql = Some t ->
  getChunk driver sql chunk w = (lookupChunk t chunk, w).
Proof.
  intros Hhit. unfold getChunk, bind at 1, cacheGet. fold (chunkKey sql).
  rewrite Hhit. reflexivity.
Qed.

(** On a miss [getChunk] makes one call to the client, whatever comes of it. *)
Lemma getChunk_miss_cases (sql : string) (chunk : Chunk) (w : World) :
  pool w = true ->
  cache w !! chunkKey sql = None ->
  getChunk driver sql chunk w
  = match pool_query driver (trace w) (baseQuery sql) JUndefined with
    | Throw e => (Throw e, afterCall w (PoolQuery (baseQuery sql) JUndefined))
    | Ok result =>
        match buildChunkTable (resolved sql result) with
        | Throw e => (Throw e, afterCall w (PoolQuery (baseQuery sql) JUndefined))
        | Ok t => (lookupChunk t chunk,
                   mkWorld (pool w) (<[chunkKey sql := t]> (cache w))
                           (trace w ++ [PoolQuery (baseQuery sql) JUndefined]))
        end
    end.
Proof.
  intros Hpool Hmiss.
  unfold getChunk, bind at 1, cacheGet. fold (chunkKey sql). rewrite Hmiss.
  unfold bind at 1. unfold bind at 1.
  rewrite (query_text driver sql JUndefined (JArr []) w Hpool eq_refl eq_refl).
  destruct (pool_query driver (trace w) (baseQuery sql) JUndefined) as [result|e];
    [|reflexivity].
  unfold bind at 1, lift at 1.
  destruct (buildChunkTable (resolved sql result)) as [t|e]; reflexivity.
Qed.

Lemma lookupChunk_count (t : ChunkTable) : lookupChunk t ChunkCount = Ok (JNull, JNull, length t).
Proof. reflexivity. Qed.

(** A count-only [select] is [getChunk] and nothing after it. *)
Lemma select_count (p : QueryParams) (w : World) :
  pool w = true ->
  q_chunk p = Some ChunkCount ->
  select driver (Some p) w
  = match getChunk driver (selectSql p) ChunkCount w with
    | (Ok (_, _, total), w') => (Ok (RTotal total), w')
    | (Throw e, w') => (Throw e, w')
    end.
Proof.
  intros Hpool Hchunk. unfold select, bind at 1, poolReady. rewrite Hpool. cbn [negb].
  assert (C : chunkOf p = Some ChunkCount).
  { unfold chunkOf. rewrite Hchunk. now destruct (commandOf p). }
  rewrite C. unfold bind at 1.
  destruct (getChunk driver (selectSql p) ChunkCount w) as [[[[s e] total]|err] w'];
    reflexivity.
Qed.

(** C8, the failing path.  When the base statement of a count-only [select]
    finds no row, the call makes its one query and then [getChunk], reading
    [data[0].id] of an empty array, throws a [TypeError]: the call returns no
    total, where the property has it return the number of windows. *)
Theorem select_count_only_no_rows (p : QueryParams) (w : World)
    (meta : option (list Column)) :
  pool w = true ->
  q_chunk p = Some ChunkCount ->
  cache w !! chunkKey (selectSql p) = None ->
  pool_query driver (trace w) (baseQuery (selectSql p)) JUndefined = Ok (DRows [] meta) ->
  select driver (Some p) w
  = (Throw (TypeError "Cannot read properties of undefined (reading 'id')"),
     afterCall w (PoolQuery (baseQuery (selectSql p)) JUndefined)).
Proof.
  intros Hpool Hchunk Hmiss Hrows.
  rewrite (select_count p w Hpool Hchunk).
  rewrite (getChunk_miss_cases (selectSql p) ChunkCount w Hpool Hmiss), Hrows.
  reflexivity.
Qed.

(** X29.  On an initialised pool, a [select] whose chunk selector is
    ['?']: on a cache hit issues no query and returns only the number of
    windows; on a miss issues exactly one query, the base statement that
    builds the cached table, and whatever it returns is only the number of
    windows of the table it has cached, which it does return when that query
    resolves to an array of at least one row with ids.  The data query of the
    assembled SELECT is never issued. *)
Theorem select_count_only (p : QueryParams) (w : World) :
  pool w = true ->
  q_chunk p = Some ChunkCount ->
  let sql := selectSql p in
  let run := select driver (Some p) w in
  (forall t, cache w !! chunkKey sql = Some t -> run = (Ok (RTotal (length t)), w))
  /\ (cache w !! chunkKey sql = None ->
      trace run.2 = trace w ++ [PoolQuery (baseQuery sql) JUndefined]
      /\ (forall r, run.1 = Ok r ->
            exists t, r = RTotal (length t) /\ cache run.2 !! chunkKey sql = Some t)
      /\ (forall data meta,
            pool_query driver (trace w) (baseQuery sql) JUndefined = Ok (DRows data meta) ->
            (1 <= length data)%nat ->
            idAt data 0 <> JUndefined ->
            (length data = 1%nat -> limitOne sql = false) ->
            run.1 = Ok (RTotal (S (bulkWindows (length data)))))).
Proof.
  intros Hpool Hchunk sql run. subst run.
  rewrite (select_count p w Hpool Hchunk). fold sql. split.
  - intros t Hhit. rewrite (getChunk_hit sql ChunkCount w t Hhit), lookupChunk_count.
    reflexivity.
  - intros Hmiss. rewrite (getChunk_miss_cases sql ChunkCount w Hpool Hmiss).
    destruct (pool_query driver (trace w) (baseQuery sql) JUndefined) as [result|e] eqn:Q.
    + destruct (buildChunkTable (resolved sql result)) as [t|e] eqn:B.
      * rewrite lookupChunk_count. cbn [fst snd trace cache].
        split; [reflexivity|]. split.
        -- intros r Hr. injection Hr as <-. exists t. split; [reflexivity|].
           apply lookup_insert_eq.
        -- intros data meta Hrows Hlen Hid Hone. injection Hrows as ->.
           assert (R : resolved sql (DRows data meta)
                       = QRows data (option_map getColumnDefs meta)).
           { unfold resolved. destruct data as [|row [|row' rest]]; try reflexivity.
             now rewrite (Hone eq_refl). }
           rewrite R, (buildChunkTable_windows data _ Hlen Hid) in B.
           assert (E : t = map (idsOf data) (chunkWindows (length data))) by congruence.
           rewrite E, length_map, chunkWindows_length. reflexivity.
      * cbn [fst snd trace afterCall]. split; [reflexivity|]. split; [discriminate|].
        intros data meta Hrows Hlen Hid Hone. injection Hrows as ->.
        assert (R : resolved sql (DRows data meta)
                    = QRows data (option_map getColumnDefs meta)).
        { unfold resolved. destruct data as [|row [|row' rest]]; try reflexivity.
          now rewrite (Hone eq_refl). }
        rewrite R, (buildChunkTable_windows data _ Hlen Hid) in B. discriminate.
    + cbn [fst snd trace afterCall]. split; [reflexivity|]. split; discriminate.
Qed.

End Select.

Lemma select_count_only_no_rows_witness :
  select (rowsDriver []) (Some (withChunk idsOfT (Some ChunkCount))) freshWorld
  = (Throw (TypeError "Cannot read properties of undefined (reading 'id')"),
     afterCall freshWorld (PoolQuery (baseQuery (selectSql idsOfT)) JUndefined)).
Proof.
  exact (select_count_only_no_rows (rowsDriver []) (withChunk idsOfT (Some ChunkCount))
           freshWorld None eq_refl eq_refl eq_refl eq_refl).
Defined.

Lemma select_count_only_witness :
  (select (rowsDriver (idRows 1 25)) (Some (withChunk idsOfT (Some ChunkCount))) freshWorld).1
  = Ok (RTotal (S (bulkWindows 25))).
Proof.
  refine (proj2 (proj2 (proj2 (select_count_only (rowsDriver (idRows 1 25))
            (withChunk idsOfT (Some ChunkCount)) freshWorld eq_refl eq_refl) eq_refl))
            (idRows 1 25) None eq_refl _ _ _).
  - vm_compute. lia.
  - discriminate.
  - discriminate.
Defined.

Section Facade.

Variable driver : Driver.

(** [runSelect] makes one call to the client and leaves the rest alone. *)
Lemma runSelect_trace (p : QueryParams) (sql : string) (w : World) :
  pool w = true ->
  isPlainObject (orElse (whereValues p) (JArr [])) = false ->
  spreadProps (orElse (q_options p) (JObj [])) = [] ->
  trace (runSelect driver p sql w).2
  = trace w ++ [PoolQuery (baseQuery sql) (orElse (whereValues p) (JArr []))].
Proof.
  intros Hpool Hvals Hopts. unfold runSelect, bind.
  rewrite (query_text driver sql _ _ w Hpool Hvals Hopts).
  destruct (pool_query driver (trace w) (baseQuery sql) _) as [result|e]; [|reflexivity].
  destruct (commandOf p); try reflexivity.
  destruct (resolved sql result) as [row|[|row rows] meta|u]; try reflexivity.
  - destruct (greaterThanZero (get row "length")); [|reflexivity].
    now destruct (default false (q_asArray p)).
  - now destruct (default false (q_asArray p)).
Qed.

(** C9.  The empty list is truthy, so [buildWhere] gives it the text of its
    string coercion, the empty string, not ["1 = 1"], and [buildWhereParams]
    gives no parameter; a [select] with [where: []] therefore carries
    [" WHERE "] followed by no predicate, in the text it assembles and in the
    statement it sends. *)
Theorem select_empty_list_where (p : QueryParams) (w : World) :
  q_where p = Some (WStrings []) \/ q_where p = Some (WRecords []) ->
  (whereFalsy (whereOf p) = false
   /\ buildWhere (whereOf p) = EmptyString
   /\ buildWhere (whereOf p) <> "1 = 1"
   /\ buildWhereParams (whereOf p) JUndefined = [])
  /\ selectSql p
     = selectHead p +:+ " WHERE " +:+ groupClauseSql p +:+ orderClause p +:+ limitClause p
  /\ (pool w = true -> chunkOf p = None ->
      q_whereParams p = JUndefined -> q_options p = JUndefined ->
      trace (select driver (Some p) w).2
      = trace w ++ [PoolQuery (baseQuery (selectSql p)) (JArr [])]).
Proof.
  intros Hwhere.
  assert (W : whereOf p = WStrings [] \/ whereOf p = WRecords []).
  { unfold whereOf. destruct Hwhere as [-> | ->]; auto. }
  assert (F : whereFalsy (whereOf p) = false) by (destruct W as [-> | ->]; reflexivity).
  assert (B : buildWhere (whereOf p) = EmptyString) by (destruct W as [-> | ->]; reflexivity).
  split; [|split].
  - split; [exact F|]. split; [exact B|]. split; [rewrite B; discriminate|].
    destruct W as [-> | ->]; reflexivity.
  - unfold selectSql, whereClause. rewrite F, B. reflexivity.
  - intros Hpool Hchunk Hparams Hopts.
    assert (V : whereValues p = JArr []).
    { unfold whereValues. rewrite F, Hparams. destruct W as [-> | ->]; reflexivity. }
    unfold select, bind at 1, poolReady. rewrite Hpool, Hchunk. cbn [negb].
    rewrite runSelect_trace; rewrite ?V, ?Hopts; try reflexivity; exact Hpool.
Qed.

(** C10.  Before the pool is initialised, [query] and [batch] throw
    ["pool is not initialized"], while [select] and [execute] return the
    object [{ error: 'pool is not initialized' }] as an ordinary result; no
    call reaches the client. *)
Theorem uninitialized_pool (w : World) :
  pool w = false ->
  (forall sql vals params,
      query driver sql vals params w = (Throw (Err "pool is not initialized"), w))
  /\ (forall sql vals params,
      batch driver sql vals params w = (Throw (Err "pool is not initialized"), w))
  /\ (forall params,
      select driver params w = (Ok (RError "pool is not initialized"), w))
  /\ (forall sql vals params,
      execute driver sql vals params w = (Ok (RError "pool is not initialized"), w)).
Proof.
  intros Hpool. repeat split; intros;
    unfold query, batch, select, execute, bind, poolReady; rewrite Hpool; reflexivity.
Qed.

(** C7 as stated fails: [insert] with an empty array raises no error, it
    returns a result. *)
Lemma insert_empty_raises_nothing :
  insert (rowsDriver []) "users" (Many []) freshWorld
  = (Ok (RDriver (DUpsert (mkUpsert 0 0 0))), freshWorld).
Proof. reflexivity. Qed.

(** C7, amended.  With an empty array of records, [update] and
    [objectUpdate] throw an invalid-request error and [insert] returns the
    result [{ affectedRows: 0, insertId: 0, warningStatus: 0 }]; in all three
    nothing is sent to the pool and the world is left as it was. *)
Theorem empty_values (w : World) :
  (forall table, insert driver table (Many []) w = (Ok (RDriver (DUpsert emptyInsert)), w))
  /\ (forall params, u_values params = Many [] ->
        update driver params w
        = (Throw (Err (if hasWhere params then "values is required"
                       else "where is required")), w))
  /\ (forall options, ou_values options = [] ->
        objectUpdate driver options w
        = (Throw (Err "Invalid parameters: table, values (array) and whereField are required"),
           w)).
Proof.
  split; [reflexivity|]. split.
  - intros params Hvals. unfold update, hasWhere. rewrite Hvals.
    destruct (u_where params) as [where_|]; [|reflexivity].
    destruct (whereFalsy where_); reflexivity.
  - intros options Hvals. unfold objectUpdate. rewrite Hvals. reflexivity.
Qed.

Lemma openConnections_app (t1 t2 : list Event) :
  openConnections (t1 ++ t2) = openConnections t1 + openConnections t2.
Proof.
  induction t1 as [|e t1 IH]; [reflexivity|].
  destruct e; cbn [app openConnections]; lia.
Qed.

(** The success path of [batch]: the connection is released. *)
Lemma batch_success (sql vals : JsVal) (params : list JsVal) (w : World) (u : UpsertResult) :
  pool w = true ->
  pool_getConnection driver (trace w) = Ok tt ->
  conn_batch driver (trace w ++ [PoolGetConnection]) (withParams sql params) vals = Ok u ->
  batch driver sql vals params w
  = (Ok u, mkWorld (pool w) (cache w)
             (trace w ++ [PoolGetConnection; ConnBatch (withParams sql params) vals;
                          ConnRelease]))
  /\ openConnections (trace (batch driver sql vals params w).2) = openConnections (trace w).
Proof.
  intros Hpool Hconn Hbatch.
  assert (E : batch driver sql vals params w
              = (Ok u, mkWorld (pool w) (cache w)
                   (trace w ++ [PoolGetConnection; ConnBatch (withParams sql params) vals;
                                ConnRelease]))).
  { unfold batch, bind, poolReady, history, emit, lift, ret. rewrite Hpool. cbn [negb].
    cbn [pool cache trace]. rewrite Hconn, Hbatch, <- !app_assoc, ?Hpool. reflexivity. }
  split; [exact E|]. rewrite E. cbn [snd trace]. rewrite openConnections_app.
  cbn [openConnections]. lia.
Qed.

(** C3, the failing path.  When the client's [batch] is rejected, [batch]
    re-throws with the connection still held: the trace ends with the
    acquisition and the batch, no release follows, and one more connection is
    open than before. *)
Theorem batch_failure_keeps_connection (sql vals : JsVal) (params : list JsVal)
    (w : World) (e : Error) :
  pool w = true ->
  pool_getConnection driver (trace w) = Ok tt ->
  conn_batch driver (trace w ++ [PoolGetConnection]) (withParams sql params) vals = Throw e ->
  batch driver sql vals params w
  = (Throw e, mkWorld (pool w) (cache w)
               (trace w ++ [PoolGetConnection; ConnBatch (withParams sql params) vals]))
  /\ ~ In ConnRelease
        (drop (length (trace w)) (trace (batch driver sql vals params w).2))
  /\ openConnections (trace (batch driver sql vals params w).2)
     = openConnections (trace w) + 1.
Proof.
  intros Hpool Hconn Hbatch.
  assert (E : batch driver sql vals params w
              = (Throw e, mkWorld (pool w) (cache w)
                   (trace w ++ [PoolGetConnection; ConnBatch (withParams sql params) vals]))).
  { unfold batch, bind, poolReady, history, emit, lift, ret. rewrite Hpool. cbn [negb].
    cbn [pool cache trace]. rewrite Hconn, Hbatch, <- !app_assoc, ?Hpool. reflexivity. }
  split; [exact E|]. rewrite E. cbn [snd trace]. split.
  - rewrite drop_app_length. intros [H|[H|[]]]; discriminate.
  - rewrite openConnections_app. cbn [openConnections]. lia.
Qed.

End Facade.

Lemma select_empty_list_where_witness :
  selectSql (withWhere idsOfT (Some (WStrings []))) = "SELECT id FROM t WHERE  ORDER BY id".
Proof.
  exact (proj1 (proj2 (select_empty_list_where (rowsDriver []) (withWhere idsOfT (Some (WStrings [])))
                         freshWorld (or_introl eq_refl)))).
Defined.

Lemma uninitialized_pool_witness :
  select (rowsDriver []) (Some idsOfT) unconfigured
  = (Ok (RError "pool is not initialized"), unconfigured).
Proof.
  exact (proj1 (proj2 (proj2 (uninitialized_pool (rowsDriver []) unconfigured eq_refl)))
           (Some idsOfT)).
Defined.

Lemma empty_values_witness :
  update (rowsDriver []) (mkUpdateParams "users" (Many []) (Some (WString "id = 1")) JUndefined)
         freshWorld
  = (Throw (Err "values is required"), freshWorld).
Proof.
  exact (proj1 (proj2 (empty_values (rowsDriver []) freshWorld))
           (mkUpdateParams "users" (Many []) (Some (WString "id = 1")) JUndefined) eq_refl).
Defined.

Lemma batch_failure_keeps_connection_witness :
  openConnections
    (trace (batch rejectingDriver (JStr "UPDATE t SET a = ? WHERE id = ?")
                  (JArr [JArr [JNum 1; JNum 2]]) [] freshWorld).2) = 1.
Proof.
  rewrite (proj1 (batch_failure_keeps_connection rejectingDriver
                    (JStr "UPDATE t SET a = ? WHERE id = ?") (JArr [JArr [JNum 1; JNum 2]]) []
                    freshWorld (SqlError "batch failed") eq_refl eq_refl eq_refl)).
  reflexivity.
Defined.

(** * Further properties *)

(** ** IdentifierProtector, continued *)

Section ProtectMore.

Lemma isWordChar_lowerChar (a : ascii) : isWordChar (lowerChar a) = isWordChar a.
Proof. destruct a as [[] [] [] [] [] [] [] []]; reflexivity. Qed.

Lemma hasNonWordChar_toLowerCase (s : string) :
  hasNonWordChar (toLowerCase s) = hasNonWordChar s.
Proof.
  induction s as [|a s IH]; [reflexivity|]. simpl. now rewrite isWordChar_lowerChar, IH.
Qed.

Lemma reservedWords_plain : Forall (fun w => hasNonWordChar w = false) reservedWords.
Proof. unfold reservedWords. repeat constructor. Qed.

Lemma isReserved_plain (w : string) : isReserved w = true -> hasNonWordChar w = false.
Proof.
  unfold isReserved. intros H. apply existsb_exists in H as (x & Hin & Heq).
  apply String.eqb_eq in Heq. subst x.
  pose proof reservedWords_plain as P. rewrite Forall_forall in P.
  apply P. now apply list_elem_of_In.
Qed.

(** A name made of word characters holds no other character. *)
Lemma word_only_includes (c : ascii) (s : string) :
  isWordChar c = false -> hasNonWordChar s = false -> includes c s = false.
Proof.
  intros Hc. induction s as [|a s IH]; [reflexivity|]. simpl.
  intros H. apply orb_false_elim in H as [Ha Hs]. rewrite (IH Hs), orb_false_r.
  apply bool_decide_eq_false. intros ->. rewrite Hc in Ha. discriminate.
Qed.

Lemma word_only_unquoted (s : string) : hasNonWordChar s = false -> quoted s = false.
Proof.
  intros H. unfold quoted. destruct s as [|a s]; [reflexivity|]. simpl in *.
  apply orb_false_elim in H as [Ha _].
  rewrite bool_decide_eq_false_2; [reflexivity|]. intros ->. discriminate.
Qed.

(** X1.  A name made only of characters of [[A-Za-z0-9_]] is put between
    backticks exactly when its lower-case form is a reserved word, and is
    returned unchanged otherwise. *)
Theorem protectFieldName_word_only (s : string) :
  hasNonWordChar s = false ->
  protectFieldName s = if isReserved (toLowerCase s) then quote s else s.
Proof.
  intros H.
  rewrite protectFieldName_part by (apply word_only_includes; [reflexivity | exact H]).
  unfold protectPart. rewrite (word_only_unquoted s H), H, orb_false_r. reflexivity.
Qed.

Lemma protectFieldName_word_only_witness :
  protectFieldName "user_id2" = "user_id2".
Proof. exact (protectFieldName_word_only "user_id2" eq_refl). Defined.

(** X2.  Reserved words are recognised whatever their case: a name whose
    lower-case form is in the reserved list comes back between backticks. *)
Theorem protectFieldName_reserved (s : string) :
  isReserved (toLowerCase s) = true -> protectFieldName s = quote s.
Proof.
  intros R.
  assert (H : hasNonWordChar s = false).
  { rewrite <- hasNonWordChar_toLowerCase. now apply isReserved_plain. }
  rewrite protectFieldName_part by (apply word_only_includes; [reflexivity | exact H]).
  unfold protectPart. now rewrite (word_only_unquoted s H), R.
Qed.

Lemma protectFieldName_reserved_witness : protectFieldName "Order" = "`Order`".
Proof. exact (protectFieldName_reserved "Order" eq_refl). Defined.

Lemma countChar_join_map (c : ascii) (sep : string) (f : string -> string) (l : list string) :
  (forall x, countChar c (f x) = countChar c x) ->
  countChar c (join sep (map f l)) = countChar c (join sep l).
Proof.
  intros Hf. induction l as [|x l IH]; [reflexivity|].
  destruct l as [|y l]; [apply Hf|].
  change (map f (x :: y :: l)) with (f x :: f y :: map f l).
  rewrite !join_cons, !countChar_app, Hf. f_equal. f_equal. exact IH.
Qed.

(** X3.  Protection adds backticks and nothing else: every other character,
    the dot included, occurs in the result as often as in the name. *)
Theorem protectFieldName_keeps_characters (c : ascii) (s : string) :
  c <> backtick -> countChar c (protectFieldName s) = countChar c s.
Proof.
  intros Hc. destruct (quoted s) eqn:Q.
  { rewrite protectFieldName_unfold. fold (quoted s). now rewrite Q. }
  destruct (includes dot s) eqn:D.
  - rewrite (protectFieldName_dotted s Q D).
    rewrite countChar_join_map by (intros x; now apply countChar_protectPart).
    change "."%string with (String dot EmptyString). now rewrite join_split.
  - rewrite (protectFieldName_part s D). now apply countChar_protectPart.
Qed.

Lemma protectFieldName_keeps_characters_witness :
  countChar dot (protectFieldName "db.order.first name") = 2%nat.
Proof.
  exact (protectFieldName_keeps_characters dot "db.order.first name" ltac:(discriminate)).
Defined.

Lemma partSafe_protectPart (p : string) : partSafe (protectPart p) = true.
Proof.
  unfold protectPart. destruct (quoted p) eqn:Q.
  - unfold partSafe. now rewrite Q.
  - destruct (isReserved (toLowerCase p) || hasNonWordChar p) eqn:R.
    + unfold partSafe. now rewrite quoted_quote.
    + apply orb_false_elim in R as [R1 R2]. unfold partSafe. now rewrite Q, R1, R2.
Qed.

(** X4.  What [protectFieldName] returns is either between backticks as a
    whole, or a dotted path each part of which is between backticks or is a
    plain identifier that is no reserved word. *)
Theorem protectFieldName_parts_safe (s : string) :
  quoted (protectFieldName s) = true
  \/ Forall (fun p => partSafe p = true) (split dot (protectFieldName s)).
Proof.
  destruct (quoted s) eqn:Q.
  { left. rewrite protectFieldName_unfold. fold (quoted s). now rewrite Q. }
  right. destruct (includes dot s) eqn:D.
  - rewrite (protectFieldName_dotted s Q D).
    change "."%string with (String dot EmptyString).
    rewrite split_join.
    + apply Forall_map, Forall_forall. intros p _. apply partSafe_protectPart.
    + destruct (split dot s) eqn:E; [now apply split_nonempty in E | discriminate].
    + apply Forall_map. eapply Forall_impl; [apply split_pieces|].
      intros p Hp. now apply protectPart_no_dot.
  - rewrite (protectFieldName_part s D).
    rewrite split_without by now apply protectPart_no_dot.
    constructor; [apply partSafe_protectPart | constructor].
Qed.

Lemma sanitizeSql_length (sql : string) :
  String.length (sanitizeSql sql) = String.length sql.
Proof. induction sql as [|a r IH]; [reflexivity|]. simpl. now rewrite IH. Qed.

(** X5.  [sanitizeSql] leaves no comma: each one becomes a backtick, and
    every other character stays where it was, so the length is kept and the
    backticks of the result are those of the text and its former commas. *)
Theorem sanitizeSql_no_comma (sql : string) :
  includes ","%char (sanitizeSql sql) = false
  /\ (forall n, String.get n (sanitizeSql sql)
                = (fun a => if bool_decide (a = ","%char) then backtick else a)
                    <$> String.get n sql)
  /\ String.length (sanitizeSql sql) = String.length sql
  /\ countChar backtick (sanitizeSql sql)
     = (countChar backtick sql + countChar ","%char sql)%nat.
Proof.
  split; [|split; [|split; [apply sanitizeSql_length|]]].
  - induction sql as [|a r IH]; [reflexivity|]. simpl. rewrite IH, orb_false_r.
    destruct (decide (a = ","%char)) as [->|Ha]; [reflexivity|].
    rewrite (bool_decide_eq_false_2 (a = ","%char)) by exact Ha.
    now apply bool_decide_eq_false.
  - induction sql as [|a r IH]; intros n; [reflexivity|].
    destruct n as [|n]; [reflexivity|]. simpl. apply IH.
  - induction sql as [|a r IH]; [reflexivity|]. simpl. rewrite IH.
    destruct (decide (a = ","%char)) as [->|Ha]; [simpl; lia|].
    rewrite !(bool_decide_eq_false_2 (a = ","%char)) by exact Ha.
    destruct (bool_decide (a = backtick)); simpl; lia.
Qed.

End ProtectMore.

(** ** Counting placeholders *)

Section Placeholders.

Lemma placeholders_app (s t : string) :
  placeholders (s +:+ t) = (placeholders s + placeholders t)%nat.
Proof. apply countChar_app. Qed.

Lemma placeholders_marks {A} (l : list A) :
  placeholders (join "," (map (fun _ => "?") l)) = length l.
Proof.
  unfold placeholders. rewrite countChar_join by reflexivity.
  induction l as [|x l IH]; [reflexivity|]. simpl in *. now rewrite IH.
Qed.

Lemma placeholders_protected (ks : list string) :
  forallb noPlaceholder ks = true ->
  placeholders (join "," (map protectFieldName ks)) = 0%nat.
Proof.
  intros H. unfold placeholders. rewrite countChar_join by reflexivity.
  rewrite map_map. rewrite <- (forallb_noPlaceholder ks H). f_equal.
  apply map_ext. intros k. apply countChar_protectFieldName.
Qed.

Lemma placeholders_assignments (sep : string) (ks : list string) :
  placeholders sep = 0%nat ->
  forallb noPlaceholder ks = true ->
  placeholders (join sep (map (fun key => protectFieldName key +:+ " = ?") ks)) = length ks.
Proof.
  intros Hsep. unfold placeholders in *. rewrite countChar_join by exact Hsep.
  induction ks as [|k ks IH]; simpl; [reflexivity|].
  intros H. apply andb_prop in H as [Hk Hks]. apply bool_decide_eq_true in Hk.
  rewrite countChar_app, countChar_protectFieldName, Hk, (IH Hks). reflexivity.
Qed.

Lemma placeholders_plain_assignments (sep : string) (fields : list string) :
  placeholders sep = 0%nat ->
  forallb noPlaceholder fields = true ->
  placeholders (join sep (map (fun field_ => field_ +:+ " = ?") fields)) = length fields.
Proof.
  intros Hsep. unfold placeholders in *. rewrite countChar_join by exact Hsep.
  induction fields as [|k ks IH]; simpl; [reflexivity|].
  intros H. apply andb_prop in H as [Hk Hks]. apply bool_decide_eq_true in Hk.
  rewrite countChar_app, Hk, (IH Hks). reflexivity.
Qed.

Lemma placeholders_repeat {A} (g : string) (l : list A) :
  placeholders (join "," (map (fun _ => g) l)) = (length l * placeholders g)%nat.
Proof.
  unfold placeholders. rewrite countChar_join by reflexivity.
  induction l as [|x l IH]; [reflexivity|]. simpl in *. now rewrite IH.
Qed.

Lemma noPlaceholder_zero (s : string) : noPlaceholder s = true -> placeholders s = 0%nat.
Proof. apply bool_decide_eq_true. Qed.

(** The text of [buildWhere] has one [?] for each value of
    [buildWhereParams], when fragments and keys hold none. *)
Lemma where_placeholders (where_ : Where) :
  placeholderFree where_ = true ->
  placeholders (buildWhere where_) = length (buildWhereParams where_ JUndefined).
Proof.
  intros H. unfold placeholders, buildWhere, buildWhereParams.
  destruct (whereFalsy where_) eqn:F; [reflexivity|].
  destruct where_ as [s|l|r|l]; simpl in H.
  - apply bool_decide_eq_true in H. exact H.
  - destruct l as [|x l]; [reflexivity|].
    rewrite countChar_join by reflexivity. now apply forallb_noPlaceholder.
  - rewrite (countChar_equalityClauses r H). unfold values. now rewrite length_map.
  - destruct l as [|first l]; [reflexivity|].
    destruct (itemIsObject first).
    + rewrite countChar_join by reflexivity.
      rewrite sum_filter_nonEmpty. now apply countChar_groups.
    + rewrite countChar_join by reflexivity. apply countChar_itemToString.
Qed.

End Placeholders.

(** ** The write statements *)

Section Writes.

Variable driver : Driver.

Lemma added_afterCall (w : World) (e : Event) : added w (afterCall w e) = [e].
Proof. unfold added, afterCall. cbn [trace]. apply drop_app_length. Qed.

Lemma added_nothing (w : World) : added w w = [].
Proof. unfold added. apply drop_all. Qed.

(** [execute] on an initialised pool: one call to the client. *)
Lemma execute_text (sql vals : JsVal) (w : World) :
  pool w = true ->
  execute driver sql vals [] w
  = match pool_execute driver (trace w) sql vals with
    | Ok result => (Ok (RDriver result), afterCall w (PoolExecute sql vals))
    | Throw e => (Throw e, afterCall w (PoolExecute sql vals))
    end.
Proof.
  intros Hpool. unfold execute, bind, poolReady, history, emit, lift, ret, afterCall.
  rewrite Hpool. cbn [negb withParams pool cache trace].
  destruct (pool_execute driver (trace w) sql vals); rewrite ?Hpool; reflexivity.
Qed.

(** The trace of [query] on a statement text with positional values. *)
Lemma query_text_added (sql : string) (vals : list JsVal) (w : World) :
  pool w = true ->
  added w (query driver (JStr sql) (JArr vals) (JArr []) w).2
  = [PoolQuery (baseQuery sql) (JArr vals)].
Proof.
  intros Hpool. rewrite (query_text driver sql (JArr vals) (JArr []) w Hpool eq_refl eq_refl).
  destruct (pool_query driver (trace w) (baseQuery sql) (JArr vals));
    apply added_afterCall.
Qed.

Lemma insertValues_length (first : Record) (valuesArray : list Record) :
  length (insertValues first valuesArray) = (length valuesArray * length first)%nat.
Proof.
  unfold insertValues. induction valuesArray as [|v l IH]; [reflexivity|].
  simpl. rewrite length_app, IH. unfold keys. now rewrite !length_map.
Qed.

(** The value [insert] binds for row [i] and key [j] of the first record. *)
Lemma insertValues_lookup (first : Record) (valuesArray : list Record) (i j : nat)
    (v : Record) (k : string) :
  valuesArray !! i = Some v -> keys first !! j = Some k ->
  insertValues first valuesArray !! (i * length first + j)%nat = Some (getProp v k).
Proof.
  intros Hv Hk. unfold insertValues.
  assert (Hj : (j < length first)%nat).
  { apply lookup_lt_Some in Hk. unfold keys in Hk. now rewrite length_map in Hk. }
  revert i Hv. induction valuesArray as [|r l IH]; intros i Hv; [discriminate|].
  cbn [flat_map]. destruct i as [|i].
  - injection Hv as ->. change (0 * length first + j)%nat with j.
    rewrite lookup_app_l by (unfold keys; rewrite !length_map; lia).
    rewrite lookup_map, Hk. reflexivity.
  - rewrite lookup_app_r by (unfold keys; rewrite !length_map; lia).
    unfold keys at 1. rewrite !length_map.
    replace (S i * length first + j - length first)%nat with (i * length first + j)%nat by lia.
    apply IH. exact Hv.
Qed.

(** X6.  [insert] of a non-empty array makes one [execute] call whose text
    names the first record's keys and whose values are read row by row under
    those keys: the value for row [i] and key [j] is what the row holds under
    that key, own or inherited, so a key a later record lacks is bound as
    [undefined] unless it names a member of [Object.prototype]; a key only
    a later record has is ignored.  There are rows times keys values, and as
    many placeholders when the table and the keys hold no question mark. *)
Theorem insert_statement (table : string) (vals : OneOrMany Record)
    (first : Record) (rest : list Record) (w : World) :
  toList vals = first :: rest ->
  pool w = true ->
  added w (insert driver table vals w).2
  = [PoolExecute (JStr (insertSql table first (first :: rest)))
                 (JArr (insertValues first (first :: rest)))]
  /\ (forall i j v k, (first :: rest) !! i = Some v -> keys first !! j = Some k ->
        insertValues first (first :: rest) !! (i * length first + j)%nat
        = Some (if hasOwn k v then get v k
                else match protoMember k with
                     | Some m => JInherited m
                     | None => JUndefined
                     end))
  /\ length (insertValues first (first :: rest)) = (length (first :: rest) * length first)%nat
  /\ (noPlaceholder table = true -> forallb noPlaceholder (keys first) = true ->
      placeholders (insertSql table first (first :: rest))
      = length (insertValues first (first :: rest))).
Proof.
  intros Hvals Hpool. split; [|split; [exact (insertValues_lookup first (first :: rest))|split]].
  - assert (E : insert driver table vals
                = execute driver (JStr (insertSql table first (first :: rest)))
                          (JArr (insertValues first (first :: rest))) []).
    { unfold insert. cbv zeta. rewrite Hvals. reflexivity. }
    rewrite E, (execute_text _ _ w Hpool).
    destruct (pool_execute driver (trace w) _ _); apply added_afterCall.
  - apply insertValues_length.
  - intros Ht Hk. rewrite insertValues_length. unfold insertSql.
    rewrite !placeholders_app, (noPlaceholder_zero table Ht), (placeholders_protected _ Hk).
    rewrite (placeholders_repeat _ (first :: rest)), !placeholders_app, placeholders_marks.
    unfold keys. rewrite length_map. change (placeholders "INSERT INTO ") with 0%nat.
    change (placeholders " (") with 0%nat. change (placeholders ") VALUES ") with 0%nat.
    change (placeholders "(") with 0%nat. change (placeholders ")") with 0%nat. lia.
Qed.

(** X7.  [update] sends one statement built from the first record's keys and
    binds the values of every record followed by the WHERE parameters.  With
    no question mark in the table, the keys and the WhereSpec, and no
    parameter override, the placeholders are matched by the first record's
    values and the WHERE parameters; the values of the records after the first
    are bound beyond them. *)
Theorem update_statement (params : UpdateParams) (where_ : Where)
    (first : Record) (rest : list Record) (w : World) :
  u_where params = Some where_ ->
  whereFalsy where_ = false ->
  toList (u_values params) = first :: rest ->
  u_whereParams params = JUndefined ->
  pool w = true ->
  let sql := updateSql (u_table params) first where_ in
  let bound := flat_map values (first :: rest) ++ buildWhereParams where_ JUndefined in
  added w (update driver params w).2 = [PoolQuery (baseQuery sql) (JArr bound)]
  /\ (noPlaceholder (u_table params) = true ->
      forallb noPlaceholder (keys first) = true ->
      placeholderFree where_ = true ->
      (placeholders sql + length (flat_map values rest))%nat = length bound).
Proof.
  intros Hwhere Hfalsy Hvals Hparams Hpool sql bound. split.
  - unfold update. rewrite Hwhere, Hfalsy, Hvals, Hparams.
    apply (query_text_added sql bound w Hpool).
  - intros Ht Hk Hw. subst sql bound. unfold updateSql.
    rewrite !placeholders_app, (noPlaceholder_zero _ Ht), (where_placeholders _ Hw).
    rewrite (placeholders_assignments "," (keys first) eq_refl Hk).
    change (flat_map values (first :: rest)) with (values first ++ flat_map values rest).
    rewrite !length_app. unfold keys, values. rewrite !length_map.
    change (placeholders "UPDATE ") with 0%nat. change (placeholders " SET ") with 0%nat.
    change (placeholders " WHERE ") with 0%nat. lia.
Qed.

(** X8.  [upsert] sends one statement and binds the inserted values before
    the update values; with no question mark in the table and the keys there
    are as many placeholders as bound values. *)
Theorem upsert_statement (table : string) (vals update_ : Record) (w : World) :
  pool w = true ->
  noPlaceholder table = true ->
  forallb noPlaceholder (keys vals) = true ->
  forallb noPlaceholder (keys update_) = true ->
  added w (upsert driver table vals update_ w).2
  = [PoolQuery (baseQuery (upsertSql table vals update_))
               (JArr (values vals ++ values update_))]
  /\ placeholders (upsertSql table vals update_) = length (values vals ++ values update_).
Proof.
  intros Hpool Ht Hv Hu. split.
  - apply (query_text_added _ _ w Hpool).
  - unfold upsertSql.
    rewrite !placeholders_app, (noPlaceholder_zero _ Ht), (placeholders_protected _ Hv).
    rewrite placeholders_marks, (placeholders_assignments "," (keys update_) eq_refl Hu).
    rewrite length_app. unfold keys, values. rewrite !length_map.
    change (placeholders "INSERT INTO ") with 0%nat. change (placeholders " (") with 0%nat.
    change (placeholders ") VALUES (") with 0%nat.
    change (placeholders ") ON DUPLICATE KEY UPDATE ") with 0%nat. lia.
Qed.

(** X9.  [delete] never sends a statement without a table and a WHERE text:
    on an initialised pool with both non-empty it makes exactly one call, the
    [execute] of [DELETE FROM table WHERE where] with the parameters as given,
    and otherwise no call at all; with either empty it throws and leaves the
    world as it was. *)
Theorem delete_needs_where (table where_ : string) (params : JsVal) (w : World) :
  added w (delete_ driver table where_ params w).2
  = (if nonEmpty table && nonEmpty where_ && pool w
     then [PoolExecute (JStr ("DELETE FROM " +:+ table +:+ " WHERE " +:+ where_)) params]
     else [])
  /\ (nonEmpty table && nonEmpty where_ = false ->
      delete_ driver table where_ params w = (Throw (Err "table and where is required"), w)).
Proof.
  unfold delete_. destruct (nonEmpty table) eqn:T; destruct (nonEmpty where_) eqn:W;
    cbn [negb orb andb].
  - split; [|discriminate]. destruct (pool w) eqn:Hpool.
    + rewrite (execute_text _ _ w Hpool).
      destruct (pool_execute driver (trace w) _ _); cbn [snd];
        rewrite added_afterCall; reflexivity.
    + unfold execute, bind, poolReady. rewrite Hpool. cbn [negb]. unfold ret. cbn [snd].
      apply added_nothing.
  - split; [|reflexivity]. unfold throw. cbn [snd]. apply added_nothing.
  - split; [|reflexivity]. unfold throw. cbn [snd]. apply added_nothing.
  - split; [|reflexivity]. unfold throw. cbn [snd]. apply added_nothing.
Qed.

End Writes.

Lemma insert_statement_witness :
  added freshWorld
    (insert (rowsDriver []) "users"
       (Many [[("name", JStr "John"); ("email", JStr "j@x.com")]; [("name", JStr "Jane")]])
       freshWorld).2
  = [PoolExecute (JStr "INSERT INTO users (name,email) VALUES (?,?),(?,?)")
       (JArr [JStr "John"; JStr "j@x.com"; JStr "Jane"; JUndefined])]
  /\ added freshWorld
       (insert (rowsDriver []) "users"
          (Many [[("name", JStr "John"); ("constructor", JStr "x")]; [("name", JStr "Jane")]])
          freshWorld).2
     = [PoolExecute (JStr "INSERT INTO users (name,constructor) VALUES (?,?),(?,?)")
          (JArr [JStr "John"; JStr "x"; JStr "Jane"; JInherited p_constructor])].
Proof.
  split.
  - exact (proj1 (insert_statement (rowsDriver []) "users"
             (Many [[("name", JStr "John"); ("email", JStr "j@x.com")]; [("name", JStr "Jane")]])
             [("name", JStr "John"); ("email", JStr "j@x.com")] [[("name", JStr "Jane")]]
             freshWorld eq_refl eq_refl)).
  - exact (proj1 (insert_statement (rowsDriver []) "users"
             (Many [[("name", JStr "John"); ("constructor", JStr "x")];
                    [("name", JStr "Jane")]])
             [("name", JStr "John"); ("constructor", JStr "x")] [[("name", JStr "Jane")]]
             freshWorld eq_refl eq_refl)).
Defined.

Lemma update_statement_witness :
  added freshWorld
    (update (rowsDriver [])
       (mkUpdateParams "users" (One [("name", JStr "John"); ("order", JNum 2)])
          (Some (WRecord [("id", JNum 1)])) JUndefined)
       freshWorld).2
  = [PoolQuery (baseQuery "UPDATE users SET name = ?,`order` = ? WHERE id = ?")
       (JArr [JStr "John"; JNum 2; JNum 1])].
Proof.
  exact (proj1 (update_statement (rowsDriver [])
           (mkUpdateParams "users" (One [("name", JStr "John"); ("order", JNum 2)])
              (Some (WRecord [("id", JNum 1)])) JUndefined)
           (WRecord [("id", JNum 1)]) [("name", JStr "John"); ("order", JNum 2)] []
           freshWorld eq_refl eq_refl eq_refl eq_refl eq_refl)).
Defined.

Lemma upsert_statement_witness :
  added freshWorld
    (upsert (rowsDriver []) "users" [("name", JStr "J"); ("order", JNum 1)]
       [("email", JStr "e")] freshWorld).2
  = [PoolQuery
       (baseQuery "INSERT INTO users (name,`order`) VALUES (?,?) ON DUPLICATE KEY UPDATE email = ?")
       (JArr [JStr "J"; JNum 1; JStr "e"])].
Proof.
  exact (proj1 (upsert_statement (rowsDriver []) "users" [("name", JStr "J"); ("order", JNum 1)]
           [("email", JStr "e")] freshWorld eq_refl eq_refl eq_refl eq_refl)).
Defined.


(** ** [objectUpdate] *)

Section ObjectUpdate.

Variable driver : Driver.

(** [batch] on an initialised pool, in each of its three courses. *)
Lemma batch_run (sql vals : JsVal) (w : World) :
  pool w = true ->
  batch driver sql vals [] w
  = match pool_getConnection driver (trace w) with
    | Throw e => (Throw e, afterCall w PoolGetConnection)
    | Ok _ =>
        match conn_batch driver (trace w ++ [PoolGetConnection]) sql vals with
        | Ok u => (Ok u, mkWorld (pool w) (cache w)
                           (trace w ++ [PoolGetConnection; ConnBatch sql vals; ConnRelease]))
        | Throw e => (Throw e, mkWorld (pool w) (cache w)
                                 (trace w ++ [PoolGetConnection; ConnBatch sql vals]))
        end
    end.
Proof.
  intros Hpool. unfold batch, bind, poolReady, history, emit, lift, ret, afterCall.
  rewrite Hpool. cbn [negb withParams pool cache trace].
  destruct (pool_getConnection driver (trace w)) as [[]|e]; [|now rewrite ?Hpool].
  destruct (conn_batch driver (trace w ++ [PoolGetConnection]) sql vals);
    rewrite <- !app_assoc, ?Hpool; reflexivity.
Qed.

(** Past its checks, [objectUpdate] is one [batch] under a handler that logs
    and re-throws. *)
Lemma objectUpdate_checked (options : ObjectUpdateOptions) (first : Record)
    (rest : list Record) :
  let whereField := default "id" (ou_whereField options) in
  let fields := otherFields whereField first in
  nonEmpty (ou_table options) = true ->
  nonEmpty whereField = true ->
  ou_values options = first :: rest ->
  uniformRecords whereField first (first :: rest) ->
  objectUpdate driver options
  = tryCatch
      (batch driver (JStr (objectUpdateSql (ou_table options) whereField fields))
             (JArr (map (objectUpdateGroup whereField fields) (first :: rest))) [])
      (fun err => emit (ConsoleError "Batch update error:" err) ;; throw err).
Proof.
  intros whereField fields Ht Hw Hvals Huni. unfold objectUpdate. cbv zeta.
  rewrite Hvals. fold whereField. rewrite Ht, Hw. cbn [negb orb].
  assert (K : existsb (fun record => negb (hasKey whereField record)) (first :: rest) = false).
  { apply not_true_is_false. intros H. apply existsb_exists in H as (r & Hin & Hr).
    unfold uniformRecords in Huni. rewrite Forall_forall in Huni.
    destruct (Huni r (proj2 (list_elem_of_In _ _) Hin)) as [Hk _].
    rewrite Hk in Hr. discriminate. }
  rewrite K.
  match goal with |- context [negb (forallb ?f ?l)] =>
    assert (S : forallb f l = true) end.
  { apply forallb_forall. intros r Hin.
    unfold uniformRecords in Huni. rewrite Forall_forall in Huni.
    destruct (Huni r (proj2 (list_elem_of_In _ _) Hin)) as [_ Hf].
    cbv beta zeta. rewrite (Permutation_length Hf), Nat.eqb_refl. cbn [andb].
    apply forallb_forall. intros f Hfin. apply existsb_exists. exists f.
    split; [|apply String.eqb_refl].
    apply list_elem_of_In. rewrite <- Hf. now apply list_elem_of_In. }
  rewrite S. reflexivity.
Qed.

(** X10.  For records that all have the key field and the same other fields,
    in whatever order, [objectUpdate] runs one batch on one connection and
    releases it: the statement sets the first record's other fields, in the
    first record's order, and filters on the key, and each record gives one
    parameter group, its values for those fields read by name and then its key
    value, so a group has one value for each placeholder when the names hold
    no question mark. *)
Theorem objectUpdate_batch (options : ObjectUpdateOptions) (first : Record)
    (rest : list Record) (w : World) (u : UpsertResult) :
  let whereField := default "id" (ou_whereField options) in
  let fields := otherFields whereField first in
  let sql := objectUpdateSql (ou_table options) whereField fields in
  let groups := map (objectUpdateGroup whereField fields) (first :: rest) in
  nonEmpty (ou_table options) = true ->
  nonEmpty whereField = true ->
  ou_values options = first :: rest ->
  uniformRecords whereField first (first :: rest) ->
  pool w = true ->
  pool_getConnection driver (trace w) = Ok tt ->
  conn_batch driver (trace w ++ [PoolGetConnection]) (JStr sql) (JArr groups) = Ok u ->
  objectUpdate driver options w
  = (Ok u, mkWorld (pool w) (cache w)
             (trace w ++ [PoolGetConnection; ConnBatch (JStr sql) (JArr groups); ConnRelease]))
  /\ Forall (fun g => exists l, g = JArr l /\ length l = S (length fields)) groups
  /\ (noPlaceholder (ou_table options) = true -> noPlaceholder whereField = true ->
      forallb noPlaceholder fields = true -> placeholders sql = S (length fields)).
Proof.
  intros whereField fields sql groups Ht Hw Hvals Huni Hpool Hconn Hbatch.
  split; [|split].
  - rewrite (objectUpdate_checked options first rest Ht Hw Hvals Huni).
    unfold tryCatch. fold whereField fields sql groups.
    rewrite (batch_run (JStr sql) (JArr groups) w Hpool), Hconn, Hbatch. reflexivity.
  - subst groups. apply Forall_map, Forall_forall. intros r _.
    unfold objectUpdateGroup. eexists. split; [reflexivity|].
    rewrite length_app, length_map. simpl. lia.
  - intros Pt Pw Pf. subst sql. unfold objectUpdateSql.
    rewrite !placeholders_app, (noPlaceholder_zero _ Pt), (noPlaceholder_zero _ Pw).
    rewrite (placeholders_plain_assignments ", " fields eq_refl Pf).
    change (placeholders "UPDATE ") with 0%nat. change (placeholders " SET ") with 0%nat.
    change (placeholders " WHERE ") with 0%nat. change (placeholders " = ?") with 1%nat. lia.
Qed.

(** X11.  When the connection's batch is rejected, [objectUpdate] logs the
    error with [console.error] and re-throws the same error; the connection it
    acquired is not released. *)
Theorem objectUpdate_logs_and_rethrows (options : ObjectUpdateOptions) (first : Record)
    (rest : list Record) (w : World) (e : Error) :
  let whereField := default "id" (ou_whereField options) in
  let fields := otherFields whereField first in
  let sql := objectUpdateSql (ou_table options) whereField fields in
  let groups := map (objectUpdateGroup whereField fields) (first :: rest) in
  nonEmpty (ou_table options) = true ->
  nonEmpty whereField = true ->
  ou_values options = first :: rest ->
  uniformRecords whereField first (first :: rest) ->
  pool w = true ->
  pool_getConnection driver (trace w) = Ok tt ->
  conn_batch driver (trace w ++ [PoolGetConnection]) (JStr sql) (JArr groups) = Throw e ->
  objectUpdate driver options w
  = (Throw e, mkWorld (pool w) (cache w)
                (trace w ++ [PoolGetConnection; ConnBatch (JStr sql) (JArr groups);
                             ConsoleError "Batch update error:" e])).
Proof.
  intros whereField fields sql groups Ht Hw Hvals Huni Hpool Hconn Hbatch.
  rewrite (objectUpdate_checked options first rest Ht Hw Hvals Huni).
  unfold tryCatch. fold whereField fields sql groups.
  rewrite (batch_run (JStr sql) (JArr groups) w Hpool), Hconn, Hbatch.
  unfold bind, emit, throw. cbn [pool cache trace]. rewrite <- app_assoc. reflexivity.
Qed.

(** X12.  [objectUpdate] checks before it sends: a record in which the key
    field is neither an own nor an inherited property, or one with a number
    of other fields different from the first record's, makes it throw with
    the world untouched. *)
Theorem objectUpdate_rejects (options : ObjectUpdateOptions) (first : Record)
    (rest : list Record) (bad : Record) (w : World) :
  let whereField := default "id" (ou_whereField options) in
  ou_values options = first :: rest ->
  In bad (first :: rest) ->
  hasKey whereField bad = false
  \/ length (otherFields whereField bad) <> length (otherFields whereField first) ->
  exists message, objectUpdate driver options w = (Throw (Err message), w).
Proof.
  intros whereField Hvals Hin Hbad. unfold objectUpdate. cbv zeta.
  rewrite Hvals. fold whereField.
  destruct (negb (nonEmpty (ou_table options)) || negb (nonEmpty whereField));
    [eexists; reflexivity|].
  destruct (existsb (fun record => negb (hasKey whereField record)) (first :: rest)) eqn:K;
    [eexists; reflexivity|].
  destruct Hbad as [Hkey|Hlen].
  - exfalso. assert (T : existsb (fun record => negb (hasKey whereField record))
                                 (first :: rest) = true).
    { apply existsb_exists. exists bad. split; [exact Hin | now rewrite Hkey]. }
    rewrite T in K. discriminate.
  - match goal with |- context [negb (forallb ?f ?l)] =>
      assert (F : forallb f l = false) end.
    { apply not_true_is_false. intros H. rewrite forallb_forall in H.
      specialize (H bad Hin). apply andb_prop in H as [H _].
      apply Nat.eqb_eq in H. contradiction. }
    rewrite F. eexists; reflexivity.
Qed.

End ObjectUpdate.

Lemma objectUpdate_batch_witness :
  objectUpdate batchDriver shuffledUsers freshWorld
  = (Ok (mkUpsert 2 0 0),
     mkWorld true ∅
       [PoolGetConnection;
        ConnBatch (JStr "UPDATE users SET name = ?, age = ? WHERE id = ?")
                  (JArr [JArr [JStr "John"; JNum 30; JNum 1];
                         JArr [JStr "Jane"; JNum 25; JNum 2]]);
        ConnRelease]).
Proof.
  refine (proj1 (objectUpdate_batch batchDriver shuffledUsers
                   [("id", JNum 1); ("name", JStr "John"); ("age", JNum 30)]
                   [[("age", JNum 25); ("name", JStr "Jane"); ("id", JNum 2)]]
                   freshWorld (mkUpsert 2 0 0)
                   eq_refl eq_refl eq_refl _ eq_refl eq_refl eq_refl)).
  constructor; [split; reflexivity|].
  constructor; [split; [reflexivity | apply perm_swap] | constructor].
Defined.

Lemma objectUpdate_logs_and_rethrows_witness :
  objectUpdate rejectingDriver twoUsers freshWorld
  = (Throw (SqlError "batch failed"),
     mkWorld true ∅
       [PoolGetConnection;
        ConnBatch (JStr "UPDATE users SET name = ? WHERE id = ?")
                  (JArr [JArr [JStr "John"; JNum 1]; JArr [JStr "Jane"; JNum 2]]);
        ConsoleError "Batch update error:" (SqlError "batch failed")]).
Proof.
  refine (objectUpdate_logs_and_rethrows rejectingDriver twoUsers
            [("id", JNum 1); ("name", JStr "John")]
            [[("id", JNum 2); ("name", JStr "Jane")]] freshWorld (SqlError "batch failed")
            eq_refl eq_refl eq_refl _ eq_refl eq_refl eq_refl).
  repeat constructor.
Defined.

Lemma objectUpdate_rejects_witness :
  exists message,
    objectUpdate batchDriver
      (mkObjectUpdate "users" [[("id", JNum 1); ("name", JStr "John")]; [("name", JStr "Jane")]]
         None) freshWorld
    = (Throw (Err message), freshWorld).
Proof.
  refine (objectUpdate_rejects batchDriver
            (mkObjectUpdate "users"
               [[("id", JNum 1); ("name", JStr "John")]; [("name", JStr "Jane")]] None)
            [("id", JNum 1); ("name", JStr "John")] [[("name", JStr "Jane")]]
            [("name", JStr "Jane")] freshWorld eq_refl _ (or_introl eq_refl)).
  right. left. reflexivity.
Defined.

(** ** [select] and the chunk planner, continued *)

Section SelectMore.

Variable driver : Driver.

(** A match of [limit 1] at the end of a text is found whatever comes before. *)
Lemma limitOneFrom_app (prev : bool) (a b : string) :
  (forall prev', limitOneFrom prev' b = true) -> limitOneFrom prev (a +:+ b) = true.
Proof.
  intros Hb. revert prev. induction a as [|c a IH]; intros prev.
  - rewrite app_empty_l. apply Hb.
  - rewrite app_cons. cbn [limitOneFrom]. rewrite IH. apply orb_true_r.
Qed.

Lemma limitOne_app (a b : string) :
  (forall prev', limitOneFrom prev' b = true) -> limitOne (a +:+ b) = true.
Proof. apply limitOneFrom_app. Qed.

Lemma limitOneFrom_limit_1 (prev : bool) : limitOneFrom prev (" LIMIT " +:+ "1") = true.
Proof. now destruct prev. Qed.



Lemma orElse_params_not_plain (p : QueryParams) :
  isPlainObject (q_whereParams p) = false ->
  isPlainObject (orElse (whereValues p) (JArr [])) = false.
Proof.
  intros H. unfold orElse, whereValues.
  destruct (whereFalsy (whereOf p)).
  - destruct (falsy (q_whereParams p)); [reflexivity | exact H].
  - reflexivity.
Qed.


(** X14.  A chunk index at or beyond the number of cached windows gives
    [{ total }] and nothing else: no query is made and the world is left as it
    was. *)
Theorem select_chunk_beyond (p : QueryParams) (w : World) (t : ChunkTable) (n : Z) :
  pool w = true ->
  q_chunk p = Some (ChunkIndex n) ->
  cache w !! chunkKey (selectSql p) = Some t ->
  Z.of_nat (length t) <= n ->
  select driver (Some p) w = (Ok (RTotal (length t)), w).
Proof.
  intros Hpool Hchunk Hhit Hn.
  assert (C : chunkOf p = Some (ChunkIndex n)).
  { unfold chunkOf. rewrite Hchunk. now destruct (commandOf p). }
  unfold select, bind at 1, poolReady. rewrite Hpool, C. cbn [negb].
  unfold bind at 1. rewrite (getChunk_hit driver _ _ w t Hhit).
  unfold lookupChunk, chunkBeyond. rewrite (proj2 (Z.leb_le _ _) Hn). reflexivity.
Qed.

(** X15.  For a cached window with both bounds present, [select] sends one
    data query and no other call: its text is the whole assembled statement,
    GROUP BY, ORDER BY and LIMIT included, followed by the range predicate
    [id BETWEEN start AND end], introduced by [AND] when the compiled WHERE
    text is non-empty and by [WHERE] otherwise. *)
Theorem select_chunk_query (p : QueryParams) (w : World) (t : ChunkTable) (n : Z)
    (startId endId : JsVal) :
  pool w = true ->
  q_chunk p = Some (ChunkIndex n) ->
  cache w !! chunkKey (selectSql p) = Some t ->
  0 <= n ->
  t !! Z.to_nat n = Some (startId, endId) ->
  startId <> JNull -> endId <> JNull ->
  q_options p = JUndefined ->
  isPlainObject (q_whereParams p) = false ->
  added w (select driver (Some p) w).2
  = [PoolQuery (baseQuery (selectSql p +:+ chunkJoint p +:+ "id BETWEEN " +:+
                           toString startId +:+ " AND " +:+ toString endId))
               (orElse (whereValues p) (JArr []))].
Proof.
  intros Hpool Hchunk Hhit Hn Ht Hs He Hopts Hplain.
  assert (C : chunkOf p = Some (ChunkIndex n)).
  { unfold chunkOf. rewrite Hchunk. now destruct (commandOf p). }
  assert (L : lookupChunk t (ChunkIndex n) = Ok (startId, endId, length t)).
  { unfold lookupChunk, chunkBeyond.
    assert (Hlt : (Z.to_nat n < length t)%nat) by (eapply lookup_lt_Some; exact Ht).
    rewrite (proj2 (Z.leb_gt _ _)) by lia. rewrite (proj2 (Z.ltb_ge _ _) Hn), Ht.
    reflexivity. }
  assert (R : forall sql, added w (runSelect driver p sql w).2
                          = [PoolQuery (baseQuery sql) (orElse (whereValues p) (JArr []))]).
  { intros sql. unfold added.
    rewrite (runSelect_trace driver p sql w Hpool (orElse_params_not_plain p Hplain))
      by now rewrite Hopts.
    apply drop_app_length. }
  unfold select, bind at 1, poolReady. rewrite Hpool, C. cbn [negb].
  unfold bind at 1. rewrite (getChunk_hit driver _ _ w t Hhit), L. unfold chunkJoint.
  destruct startId; try congruence; destruct endId; try congruence;
    destruct (nonEmpty (whereText p)); apply R.
Qed.

(** X16.  The chunk table is built once: after a miss that built it, a
    further [getChunk] for the same statement, whatever the selector, answers
    from the cache and makes no call to the client. *)
Theorem getChunk_builds_once (sql : string) (c1 c2 : Chunk) (w : World)
    (data : list Record) (meta : option (list Column)) :
  pool w = true ->
  cache w !! chunkKey sql = None ->
  pool_query driver (trace w) (baseQuery sql) JUndefined = Ok (DRows data meta) ->
  (1 <= length data)%nat ->
  idAt data 0 <> JUndefined ->
  (length data = 1%nat -> limitOne sql = false) ->
  let w1 := (getChunk driver sql c1 w).2 in
  getChunk driver sql c2 w1
  = (lookupChunk (map (idsOf data) (chunkWindows (length data))) c2, w1)
  /\ added w w1 = [PoolQuery (baseQuery sql) JUndefined].
Proof.
  intros Hpool Hmiss Hrows Hlen Hid Hone w1. subst w1.
  rewrite (getChunk_miss driver sql c1 w data meta Hpool Hmiss Hrows Hlen Hid Hone).
  cbn [snd]. split.
  - apply getChunk_hit. cbn [cache]. apply lookup_insert_eq.
  - unfold added. cbn [trace]. apply drop_app_length.
Qed.

(** X17.  An empty result is never cached: on a miss whose base query yields
    no row, [getChunk] throws after its query and leaves the cache as it was,
    so the next request runs the base query again. *)
Theorem getChunk_empty_result (sql : string) (chunk : Chunk) (w : World)
    (meta : option (list Column)) :
  pool w = true ->
  cache w !! chunkKey sql = None ->
  pool_query driver (trace w) (baseQuery sql) JUndefined = Ok (DRows [] meta) ->
  getChunk driver sql chunk w
  = (Throw (TypeError "Cannot read properties of undefined (reading 'id')"),
     afterCall w (PoolQuery (baseQuery sql) JUndefined))
  /\ cache (getChunk driver sql chunk w).2 !! chunkKey sql = None.
Proof.
  intros Hpool Hmiss Hrows.
  rewrite (getChunk_miss_cases driver sql chunk w Hpool Hmiss), Hrows.
  cbn [resolved buildChunkTable snd afterCall cache]. split; [reflexivity | exact Hmiss].
Qed.

End SelectMore.


Lemma select_chunk_beyond_witness :
  select (rowsDriver []) (Some (withChunk idsOfT (Some (ChunkIndex 2)))) cachedWorld
  = (Ok (RTotal 2), cachedWorld).
Proof.
  apply (select_chunk_beyond (rowsDriver []) (withChunk idsOfT (Some (ChunkIndex 2)))
           cachedWorld [(JNum 1, JNum 20); (JNum 21, JNum 25)] 2);
    [reflexivity | reflexivity | reflexivity | simpl; lia].
Defined.

Lemma select_chunk_query_witness :
  added cachedWorld
    (select (rowsDriver []) (Some (withChunk idsOfT (Some (ChunkIndex 1)))) cachedWorld).2
  = [PoolQuery
       (baseQuery "SELECT id FROM t WHERE 1=1 ORDER BY id AND id BETWEEN 21 AND 25")
       (JArr [])].
Proof.
  apply (select_chunk_query (rowsDriver []) (withChunk idsOfT (Some (ChunkIndex 1)))
           cachedWorld [(JNum 1, JNum 20); (JNum 21, JNum 25)] 1 (JNum 21) (JNum 25));
    [reflexivity | reflexivity | reflexivity | lia | reflexivity | discriminate
    | discriminate | reflexivity | reflexivity].
Defined.

Lemma getChunk_builds_once_witness :
  added freshWorld
    (getChunk (rowsDriver (idRows 1 25)) "SELECT id FROM t" ChunkCount freshWorld).2
  = [PoolQuery (baseQuery "SELECT id FROM t") JUndefined].
Proof.
  apply (getChunk_builds_once (rowsDriver (idRows 1 25)) "SELECT id FROM t" ChunkCount
           (ChunkIndex 0) freshWorld (idRows 1 25) None);
    [reflexivity | reflexivity | reflexivity | vm_compute; lia | discriminate | discriminate].
Defined.

Lemma getChunk_empty_result_witness :
  cache (getChunk (rowsDriver []) "SELECT id FROM t" ChunkCount freshWorld).2
    !! chunkKey "SELECT id FROM t" = None.
Proof.
  exact (proj2 (getChunk_empty_result (rowsDriver []) "SELECT id FROM t" ChunkCount freshWorld
                  None eq_refl eq_refl eq_refl)).
Defined.

(** ** Windows and ascending ids *)

Section Ranges.

Lemma tiles_bounds (ws : list (nat * nat)) (start stop k a b : nat) :
  tiles ws start stop -> ws !! k = Some (a, b) ->
  (start <= a)%nat /\ (a <= b)%nat /\ (b < stop)%nat.
Proof.
  revert start k. induction ws as [|[c d] ws IH]; intros start k T Hk; [discriminate|].
  destruct T as (Hc & Hcd & T). subst c.
  assert (Hstop : (S d <= stop)%nat).
  { clear IH Hk. revert T. generalize (S d). induction ws as [|[x y] ws IHws]; intros s T.
    - simpl in T. lia.
    - destruct T as (-> & Hxy & T). specialize (IHws _ T). lia. }
  destruct k as [|k].
  - simpl in Hk. injection Hk as <- <-. lia.
  - simpl in Hk. destruct (IH _ _ T Hk) as (H1 & H2 & H3). lia.
Qed.

Lemma hasIds_idAt (data : list Record) (ids : list Z) (i : nat) (z : Z) :
  hasIds data ids -> ids !! i = Some z -> idAt data i = JNum z.
Proof.
  intros H Hi. unfold hasIds in H.
  assert (E : map (fun row => get row "id") data !! i = Some (JNum z)).
  { rewrite H, lookup_map, Hi. reflexivity. }
  rewrite lookup_map in E. unfold idAt. destruct (data !! i); [|discriminate].
  simpl in E. congruence.
Qed.

Lemma hasIds_length (data : list Record) (ids : list Z) :
  hasIds data ids -> length ids = length data.
Proof.
  intros H. unfold hasIds in H. apply (f_equal length) in H.
  rewrite !length_map in H. lia.
Qed.

(** The ranges of the windows of rows with strictly ascending ids. *)
Lemma windows_partition_ids (data : list Record) (ids : list Z) :
  hasIds data ids ->
  ascending ids ->
  (1 <= length data)%nat ->
  let table := map (idsOf data) (chunkWindows (length data)) in
  forall pos z, ids !! pos = Some z ->
    exists k lo hi, table !! k = Some (JNum lo, JNum hi) /\ lo <= z <= hi /\
      forall k' lo' hi', table !! k' = Some (JNum lo', JNum hi') -> lo' <= z <= hi' -> k' = k.
Proof.
  intros Hids Hasc Hlen table pos z Hpos. subst table.
  pose proof (hasIds_length data ids Hids) as Hl.
  pose proof (chunkWindows_tiles (length data) Hlen) as T.
  assert (Hlt : (pos < length data)%nat).
  { rewrite <- Hl. eapply lookup_lt_Some. exact Hpos. }
  assert (Mono : forall i j a b, (i <= j)%nat -> ids !! i = Some a -> ids !! j = Some b ->
                                 a <= b).
  { intros i j a b Hij Hi Hj. destruct (decide (i = j)) as [->|Hne].
    - rewrite Hi in Hj. injection Hj as ->. lia.
    - assert (a < b) by (apply (Hasc i j); [lia | assumption..]). lia. }
  assert (At : forall i, (i < length data)%nat -> exists v, ids !! i = Some v).
  { intros i Hi. apply lookup_lt_is_Some. lia. }
  destruct (tiles_cover _ 0 (length data) pos T ltac:(lia)) as (k & a & b & Hk & Hr & Huniq).
  destruct (tiles_bounds _ _ _ _ _ _ T Hk) as (_ & Hab & Hb).
  destruct (At a ltac:(lia)) as [lo Hlo]. destruct (At b Hb) as [hi Hhi].
  exists k, lo, hi. split; [|split].
  - rewrite lookup_map, Hk. cbn [fmap option_fmap option_map]. unfold idsOf. cbn [fst snd].
    now rewrite (hasIds_idAt data ids a lo Hids Hlo), (hasIds_idAt data ids b hi Hids Hhi).
  - split; [apply (Mono a pos); [lia | assumption..] | apply (Mono pos b); [lia | assumption..]].
  - intros k' lo' hi' Hk' Hz. rewrite lookup_map in Hk'.
    destruct (chunkWindows (length data) !! k') as [[a' b']|] eqn:Hw; [|discriminate].
    cbn [fmap option_fmap option_map] in Hk'. unfold idsOf in Hk'. cbn [fst snd] in Hk'.
    destruct (tiles_bounds _ _ _ _ _ _ T Hw) as (_ & Hab' & Hb').
    destruct (At a' ltac:(lia)) as [la Hla]. destruct (At b' Hb') as [hb Hhb].
    rewrite (hasIds_idAt data ids a' la Hids Hla), (hasIds_idAt data ids b' hb Hids Hhb) in Hk'.
    assert (la = lo') by congruence. assert (hb = hi') by congruence. subst la hb.
    apply (Huniq k' a' b' Hw). split.
    + destruct (Nat.le_gt_cases a' pos) as [|Hgt]; [assumption|].
      assert (z < lo') by (apply (Hasc pos a'); assumption). lia.
    + destruct (Nat.le_gt_cases pos b') as [|Hgt]; [assumption|].
      assert (hi' < z) by (apply (Hasc b' pos); assumption). lia.
Qed.

(** X18.  When the rows come with strictly ascending numeric ids, the table
    [getChunk] builds of them is made, and its [[startId, endId]] ranges
    select every row exactly once: each row's id lies between the bounds of
    one window of the table and of no other. *)
Theorem chunk_ranges_partition_ids (data : list Record) (meta : option (list ColumnDef))
    (ids : list Z) :
  hasIds data ids ->
  ascending ids ->
  (1 <= length data)%nat ->
  exists table,
    buildChunkTable (QRows data meta) = Ok table
    /\ forall pos z, ids !! pos = Some z ->
         exists k lo hi, table !! k = Some (JNum lo, JNum hi) /\ lo <= z <= hi /\
           forall k' lo' hi', table !! k' = Some (JNum lo', JNum hi') ->
                              lo' <= z <= hi' -> k' = k.
Proof.
  intros Hids Hasc Hlen.
  exists (map (idsOf data) (chunkWindows (length data))). split.
  - apply buildChunkTable_windows; [exact Hlen|].
    pose proof (hasIds_length data ids Hids) as Hl.
    destruct (lookup_lt_is_Some_2 ids 0 ltac:(lia)) as [z0 Hz0].
    rewrite (hasIds_idAt data ids 0 z0 Hids Hz0). discriminate.
  - exact (windows_partition_ids data ids Hids Hasc Hlen).
Qed.

End Ranges.

Lemma chunk_ranges_partition_ids_witness :
  exists table,
    buildChunkTable (QRows (idRows 1 25) None) = Ok table
    /\ forall pos z, map (fun i => 1 + Z.of_nat i) (seq 0 25) !! pos = Some z ->
         exists k lo hi, table !! k = Some (JNum lo, JNum hi) /\ lo <= z <= hi /\
           forall k' lo' hi', table !! k' = Some (JNum lo', JNum hi') ->
                              lo' <= z <= hi' -> k' = k.
Proof.
  refine (chunk_ranges_partition_ids (idRows 1 25) None
            (map (fun i => 1 + Z.of_nat i) (seq 0 25)) eq_refl _ _).
  - intros i j a b Hij Hi Hj.
    rewrite lookup_map in Hi, Hj.
    destruct (seq 0 25 !! i) as [x|] eqn:Ei; [|discriminate].
    destruct (seq 0 25 !! j) as [y|] eqn:Ej; [|discriminate].
    apply lookup_seq in Ei as [-> _]. apply lookup_seq in Ej as [-> _].
    simpl in Hi, Hj. injection Hi as <-. injection Hj as <-. lia.
  - vm_compute. lia.
Defined.

(** ** The JSON helpers and the transaction methods *)

Section Json.

Variable driver : Driver.

Lemma limitOne_jsonValueSql (table where_ jsonField : string) :
  limitOne (jsonValueSql table where_ jsonField) = true.
Proof.
  unfold jsonValueSql. apply limitOne_app. intros prev1.
  do 5 (apply limitOneFrom_app; intros ?). apply limitOneFrom_limit_1.
Qed.

Lemma limitOne_jsonExtractSql (table where_ jsonField : string) :
  limitOne (jsonExtractSql table where_ jsonField) = true.
Proof.
  unfold jsonExtractSql. apply limitOne_app. intros prev1.
  do 5 (apply limitOneFrom_app; intros ?). apply limitOneFrom_limit_1.
Qed.

(** X19.  [getJsonValue] ends its statement with [LIMIT 1], so a match comes
    back as the bare row [{ value }], not as a list of one row. *)
Theorem getJsonValue_bare_row (table where_ jsonField : string) (path : option string)
    (w : World) (row : Record) (meta : option (list Column)) :
  pool w = true ->
  pool_query driver (trace w) (baseQuery (jsonValueSql table where_ jsonField))
             (JArr [jsonPath (default "*" path)]) = Ok (DRows [row] meta) ->
  getJsonValue driver table where_ jsonField path w
  = (Ok (QRow row),
     afterCall w (PoolQuery (baseQuery (jsonValueSql table where_ jsonField))
                            (JArr [jsonPath (default "*" path)]))).
Proof.
  intros Hpool Hrow. unfold getJsonValue.
  rewrite (query_text driver _ (JArr [jsonPath (default "*" path)]) (JArr []) w Hpool
             eq_refl eq_refl), Hrow.
  cbn [resolved]. now rewrite limitOne_jsonValueSql.
Qed.

(** X20.  [getJsonExtract] reads [result[0]?.value] from what [query]
    resolved to; its statement ends with [LIMIT 1], so a single matching row
    has already been unwrapped, [result[0]] is the row's property [0], and the
    method returns [undefined] instead of the extracted value (as it does
    when nothing matches). *)
Theorem getJsonExtract_undefined (table where_ jsonField : string) (path : option string)
    (w : World) (rows : list Record) (meta : option (list Column)) :
  pool w = true ->
  (length rows <= 1)%nat ->
  Forall (fun row => get row "0" = JUndefined) rows ->
  pool_query driver (trace w) (baseQuery (jsonExtractSql table where_ jsonField))
             (JArr [if nonEmpty (default "" path) then jsonPath (default "" path)
                    else JStr "$"])
  = Ok (DRows rows meta) ->
  (getJsonExtract driver table where_ jsonField path w).1 = Ok JUndefined.
Proof.
  intros Hpool Hlen Hno Hrows. unfold getJsonExtract, bind.
  rewrite (query_text driver _ (JArr [if nonEmpty (default "" path)
                                      then jsonPath (default "" path) else JStr "$"])
             (JArr []) w Hpool eq_refl eq_refl), Hrows.
  destruct rows as [|row [|row' rest]]; [reflexivity | | simpl in Hlen; lia].
  cbn [resolved]. rewrite limitOne_jsonExtractSql. cbn [ret fst firstValue].
  inversion Hno as [|? ? H0 _]; subst. now rewrite H0.
Qed.

Lemma flatEntries_length (fields : list (string * JsVal)) :
  length (flatEntries (JObj fields)) = (2 * length fields)%nat.
Proof.
  unfold flatEntries. cbn [spreadProps].
  induction fields as [|kv l IH]; [reflexivity|]. simpl in *. rewrite IH. lia.
Qed.

Lemma placeholders_pairs (n : nat) :
  placeholders (join "," (replicate n "?,?")) = (2 * n)%nat.
Proof.
  unfold placeholders. rewrite countChar_join by reflexivity.
  induction n as [|n IH]; [reflexivity|]. simpl in *. rewrite IH. lia.
Qed.

(** X21.  For an object value, [setJsonObject] writes one [?,?] pair for each
    entry and binds the path followed by each key and its value: the statement
    has as many placeholders as bound values when the table, the WHERE text
    and the JSON field hold no question mark. *)
Theorem setJsonObject_object (table where_ jsonField path : string)
    (fields : list (string * JsVal)) (w : World) :
  pool w = true ->
  nonEmpty where_ = true ->
  noPlaceholder table = true -> noPlaceholder where_ = true ->
  noPlaceholder jsonField = true ->
  let bound := jsonPath path :: flatEntries (JObj fields) in
  let sql := jsonSetObjectSql table where_ jsonField (flatEntries (JObj fields)) in
  added w (setJsonObject driver table where_ jsonField path (JObj fields) w).2
  = [PoolQuery (baseQuery sql) (JArr bound)]
  /\ placeholders sql = length bound.
Proof.
  intros Hpool Hw Pt Pw Pj bound sql. split.
  - unfold setJsonObject. rewrite Hw. cbn [negb].
    apply (query_text_added driver sql bound w Hpool).
  - subst sql bound. unfold jsonSetObjectSql.
    rewrite !placeholders_app, (noPlaceholder_zero _ Pt), (noPlaceholder_zero _ Pw),
      (noPlaceholder_zero _ Pj), placeholders_pairs.
    cbn [length]. rewrite flatEntries_length.
    replace (2 * length fields / 2)%nat with (length fields)
      by (rewrite Nat.mul_comm, Nat.div_mul; [reflexivity | discriminate]).
    change (placeholders "UPDATE ") with 0%nat. change (placeholders " SET ") with 0%nat.
    change (placeholders " = JSON_SET(") with 0%nat.
    change (placeholders ", ?, JSON_OBJECT(") with 1%nat.
    change (placeholders ")) WHERE ") with 0%nat. lia.
Qed.


Lemma added_trace (w w' : World) (l : list Event) :
  trace w' = trace w ++ l -> added w w' = l.
Proof. intros H. unfold added. rewrite H. apply drop_app_length. Qed.

Lemma poolStatement_run (text : string) (w : World) :
  poolStatement driver text w
  = if pool w
    then match pool_query driver (trace w) (JStr text) JUndefined with
         | Ok _ => (Ok tt, afterCall w (PoolQuery (JStr text) JUndefined))
         | Throw e => (Throw e, afterCall w (PoolQuery (JStr text) JUndefined))
         end
    else (Throw (Err "Pool is not initialized"), w).
Proof.
  unfold poolStatement, bind, poolReady, history, emit, lift, ret, throw, afterCall.
  destruct (pool w) eqn:Hpool; cbn [negb]; [|reflexivity].
  cbn [pool cache trace]. destruct (pool_query driver (trace w) (JStr text) JUndefined);
    rewrite ?Hpool; reflexivity.
Qed.

Lemma bind_run {A B} (m : M A) (k : A -> M B) (w : World) :
  bind m k w = match m w with
               | (Ok a, w') => k a w'
               | (Throw e, w') => (Throw e, w')
               end.
Proof. reflexivity. Qed.

(** X23.  A transaction is not pinned to a connection: [beginTransaction], a
    statement sent with [query] and [commit] each go to the pool as a query
    of their own; whatever the client answers, the sequence never acquires a
    connection, and when all three succeed the pool has seen [BEGIN], the
    statement and [COMMIT], in that order. *)
Theorem transaction_not_pinned (sql : string) (vals : list JsVal) (w : World) :
  let run := (beginTransaction driver ;;
              query driver (JStr sql) (JArr vals) (JArr []) ;;
              commit driver) w in
  Forall (fun e => exists s v, e = PoolQuery s v) (added w run.2)
  /\ (run.1 = Ok tt ->
      added w run.2 = [PoolQuery (JStr "BEGIN") JUndefined;
                       PoolQuery (baseQuery sql) (JArr vals);
                       PoolQuery (JStr "COMMIT") JUndefined]).
Proof.
  intros run. subst run. unfold beginTransaction, commit.
  rewrite bind_run, poolStatement_run. destruct (pool w) eqn:Hpool.
  2:{ cbn [fst snd]. rewrite added_nothing. split; [constructor | discriminate]. }
  destruct (pool_query driver (trace w) (JStr "BEGIN") JUndefined) as [r0|e0].
  2:{ cbn [fst snd]. rewrite added_afterCall. split; [|discriminate].
      repeat constructor. eauto. }
  set (w1 := afterCall w (PoolQuery (JStr "BEGIN") JUndefined)).
  assert (Hpool1 : pool w1 = true) by exact Hpool.
  rewrite bind_run.
  rewrite (query_text driver sql (JArr vals) (JArr []) w1 Hpool1 eq_refl eq_refl).
  destruct (pool_query driver (trace w1) (baseQuery sql) (JArr vals)) as [r1|e1].
  2:{ cbn [fst snd]. split; [|discriminate].
      rewrite (added_trace w _ [PoolQuery (JStr "BEGIN") JUndefined;
                                PoolQuery (baseQuery sql) (JArr vals)])
        by (unfold w1, afterCall; cbn [trace]; now rewrite <- app_assoc).
      repeat constructor; eauto. }
  set (w2 := afterCall w1 (PoolQuery (baseQuery sql) (JArr vals))).
  rewrite poolStatement_run. replace (pool w2) with true by (symmetry; exact Hpool).
  assert (T : trace (afterCall w2 (PoolQuery (JStr "COMMIT") JUndefined))
              = trace w ++ [PoolQuery (JStr "BEGIN") JUndefined;
                            PoolQuery (baseQuery sql) (JArr vals);
                            PoolQuery (JStr "COMMIT") JUndefined]).
  { unfold w2, w1, afterCall. cbn [trace]. now rewrite <- !app_assoc. }
  destruct (pool_query driver (trace w2) (JStr "COMMIT") JUndefined) as [r2|e2];
    cbn [fst snd]; rewrite (added_trace w _ _ T);
    (split; [repeat constructor; eauto | try discriminate; reflexivity]).
Qed.

End Json.

Lemma getJsonValue_bare_row_witness :
  (getJsonValue (oneRowDriver [("value", JStr "x")]) "t" "id = 1" "data" None freshWorld).1
  = Ok (QRow [("value", JStr "x")]).
Proof.
  rewrite (getJsonValue_bare_row (oneRowDriver [("value", JStr "x")]) "t" "id = 1" "data" None
             freshWorld [("value", JStr "x")] None eq_refl eq_refl).
  reflexivity.
Defined.

Lemma getJsonExtract_undefined_witness :
  (getJsonExtract (oneRowDriver [("value", JStr "x")]) "t" "id = 1" "data" (Some "a")
                  freshWorld).1
  = Ok JUndefined.
Proof.
  apply (getJsonExtract_undefined (oneRowDriver [("value", JStr "x")]) "t" "id = 1" "data"
           (Some "a") freshWorld [[("value", JStr "x")]] None);
    [reflexivity | simpl; lia | repeat constructor | reflexivity].
Defined.

Lemma setJsonObject_object_witness :
  placeholders
    (jsonSetObjectSql "t" "id = 1" "data"
       (flatEntries (JObj [("a", JNum 1); ("b", JArr [JNum 2; JNum 3])])))
  = 5%nat.
Proof.
  exact (proj2 (setJsonObject_object (rowsDriver []) "t" "id = 1" "data" "p"
                  [("a", JNum 1); ("b", JArr [JNum 2; JNum 3])] freshWorld
                  eq_refl eq_refl eq_refl eq_refl eq_refl)).
Defined.


(** ** [query] and [select], further *)

Section QueryMore.

Variable driver : Driver.

(** X24.  [query] switches a statement text to named placeholders exactly
    when the text starts with [select] in any case and the values'
    [constructor] is [Object]: an object with no own [constructor] property
    qualifies; an array, an absent value and an object whose own [constructor]
    holds data do not, and with any other statement even a plain object is
    sent with positional binding left on. *)
Theorem query_named_placeholders (sql : string) (vals : JsVal) (w : World) :
  pool w = true ->
  added w (query driver (JStr sql) vals (JArr []) w).2
  = [PoolQuery (if startsWithStr "select" (toLowerCase sql) && isPlainObject vals
                then namedQuery sql else baseQuery sql)
               vals]
  /\ (forall fields, hasOwn "constructor" fields = false ->
                     isPlainObject (JObj fields) = true)
  /\ (forall fields, hasOwn "constructor" fields = true ->
                     (forall m, get fields "constructor" <> JInherited m) ->
                     isPlainObject (JObj fields) = false).
Proof.
  intros Hpool. split; [|split].
  - unfold query. rewrite bind_run. unfold poolReady. rewrite Hpool.
    cbn [negb spreadProps].
    change (withSql sql (spreadArray [])) with (baseQuery sql).
    unfold baseQuery at 1. change (get [("sql", JStr sql)] "sql") with (JStr sql). cbv iota.
    change (setProp "namedPlaceholders" (JBool true) [("sql", JStr sql)])
      with [("sql", JStr sql); ("namedPlaceholders", JBool true)].
    fold (namedQuery sql). fold (baseQuery sql).
    set (sent := if startsWithStr "select" (toLowerCase sql) && isPlainObject vals
                 then namedQuery sql else baseQuery sql).
    unfold bind, history, emit, lift, ret.
    apply (added_trace w _ [PoolQuery sent vals]).
    destruct (pool_query driver (trace w) sent vals) as [[rows meta|u]|e];
      try reflexivity.
    destruct rows as [|row [|row' rows]]; try reflexivity.
    now destruct (limitOne sql).
  - intros fields Hown. unfold isPlainObject, getProp. now rewrite Hown.
  - intros fields Hown Hdata. unfold isPlainObject, getProp. rewrite Hown.
    destruct (get fields "constructor") as [| | | | | | |m]; try reflexivity.
    now destruct (Hdata m).
Qed.

(** X25.  A [select] with neither [command] nor [limit] runs as [findFirst]:
    the statement carries no LIMIT, so every row is fetched, and of two or
    more rows only the first is returned, bare or, with [asArray], as a list
    of one. *)
Theorem select_default_first (p : QueryParams) (w : World) (row row2 : Record)
    (rest : list Record) (meta : option (list Column)) :
  pool w = true ->
  q_command p = None -> q_limit p = None -> q_chunk p = None ->
  q_options p = JUndefined ->
  isPlainObject (q_whereParams p) = false ->
  pool_query driver (trace w) (baseQuery (selectSql p)) (orElse (whereValues p) (JArr []))
  = Ok (DRows (row :: row2 :: rest) meta) ->
  limitClause p = EmptyString
  /\ (select driver (Some p) w).1
     = Ok (RQuery (if default false (q_asArray p) then QRows [row] None else QRow row)).
Proof.
  intros Hpool Hcmd Hlimit Hchunk Hopts Hplain Hrows.
  assert (C : commandOf p = findFirst) by (unfold commandOf; now rewrite Hcmd, Hlimit).
  assert (K : chunkOf p = None) by (unfold chunkOf; now rewrite C, Hchunk).
  split; [unfold limitClause; now rewrite Hlimit|].
  unfold select. rewrite bind_run. unfold poolReady. rewrite Hpool, K. cbn [negb].
  unfold runSelect. rewrite bind_run.
  rewrite (query_text driver (selectSql p) _ _ w Hpool (orElse_params_not_plain p Hplain))
    by now rewrite Hopts.
  rewrite Hrows, C. cbn [resolved].
  now destruct (default false (q_asArray p)).
Qed.


End QueryMore.

Lemma query_named_placeholders_witness :
  added freshWorld
    (query (rowsDriver []) (JStr "SELECT * FROM users WHERE id = :id") (JObj [("id", JNum 1)])
           (JArr []) freshWorld).2
  = [PoolQuery (namedQuery "SELECT * FROM users WHERE id = :id") (JObj [("id", JNum 1)])]
  /\ added freshWorld
       (query (rowsDriver []) (JStr "SELECT * FROM users WHERE id = :constructor")
              (JObj [("constructor", JNum 1)]) (JArr []) freshWorld).2
     = [PoolQuery (baseQuery "SELECT * FROM users WHERE id = :constructor")
                  (JObj [("constructor", JNum 1)])].
Proof.
  split.
  - exact (proj1 (query_named_placeholders (rowsDriver [])
                    "SELECT * FROM users WHERE id = :id" (JObj [("id", JNum 1)])
                    freshWorld eq_refl)).
  - exact (proj1 (query_named_placeholders (rowsDriver [])
                    "SELECT * FROM users WHERE id = :constructor"
                    (JObj [("constructor", JNum 1)]) freshWorld eq_refl)).
Defined.

Lemma select_default_first_witness :
  (select (rowsDriver (idRows 1 3)) (Some allOfT) freshWorld).1
  = Ok (RQuery (QRow [("id", JNum 1)])).
Proof.
  exact (proj2 (select_default_first (rowsDriver (idRows 1 3)) allOfT freshWorld
                  [("id", JNum 1)] [("id", JNum 2)] [[("id", JNum 3)]] None
                  eq_refl eq_refl eq_refl eq_refl eq_refl eq_refl eq_refl)).
Defined.


Section ColdChunk.

Variable driver : Driver.

(** X27.  The first chunk request for a statement makes two queries.  The
    base statement goes out with no values at all, whatever placeholders its
    WHERE text holds; the data query that follows is the same text with the
    range of the requested window appended, and it is the one that carries
    the WHERE parameters. *)
Theorem select_chunk_cold (p : QueryParams) (w : World) (n : Z) (a b : nat)
    (data : list Record) (meta : option (list Column)) :
  pool w = true ->
  q_chunk p = Some (ChunkIndex n) ->
  cache w !! chunkKey (selectSql p) = None ->
  pool_query driver (trace w) (baseQuery (selectSql p)) JUndefined = Ok (DRows data meta) ->
  (1 <= length data)%nat ->
  idAt data 0 <> JUndefined ->
  (length data = 1%nat -> limitOne (selectSql p) = false) ->
  0 <= n ->
  chunkWindows (length data) !! Z.to_nat n = Some (a, b) ->
  idAt data a <> JNull -> idAt data b <> JNull ->
  q_options p = JUndefined ->
  isPlainObject (q_whereParams p) = false ->
  added w (select driver (Some p) w).2
  = [PoolQuery (baseQuery (selectSql p)) JUndefined;
     PoolQuery (baseQuery (selectSql p +:+ chunkJoint p +:+ "id BETWEEN " +:+
                           toString (idAt data a) +:+ " AND " +:+ toString (idAt data b)))
               (orElse (whereValues p) (JArr []))].
Proof.
  intros Hpool Hchunk Hmiss Hrows Hlen Hid Hone Hn Hwin Ha Hb Hopts Hplain.
  assert (C : chunkOf p = Some (ChunkIndex n)).
  { unfold chunkOf. rewrite Hchunk. now destruct (commandOf p). }
  set (table := map (idsOf data) (chunkWindows (length data))).
  assert (Ht : table !! Z.to_nat n = Some (idAt data a, idAt data b)).
  { unfold table. rewrite lookup_map, Hwin. reflexivity. }
  assert (L : lookupChunk table (ChunkIndex n) = Ok (idAt data a, idAt data b, length table)).
  { unfold lookupChunk, chunkBeyond.
    assert (Hlt : (Z.to_nat n < length table)%nat) by (eapply lookup_lt_Some; exact Ht).
    rewrite (proj2 (Z.leb_gt _ _)) by lia. rewrite (proj2 (Z.ltb_ge _ _) Hn), Ht.
    reflexivity. }
  set (w1 := mkWorld (pool w) (<[chunkKey (selectSql p) := table]> (cache w))
                     (trace w ++ [PoolQuery (baseQuery (selectSql p)) JUndefined])).
  assert (R : forall sql, added w (runSelect driver p sql w1).2
                = [PoolQuery (baseQuery (selectSql p)) JUndefined;
                   PoolQuery (baseQuery sql) (orElse (whereValues p) (JArr []))]).
  { intros sql. apply added_trace.
    rewrite (runSelect_trace driver p sql w1 Hpool (orElse_params_not_plain p Hplain))
      by now rewrite Hopts.
    unfold w1. cbn [trace]. now rewrite <- app_assoc. }
  unfold select. rewrite bind_run. unfold poolReady. rewrite Hpool, C. cbn [negb].
  rewrite bind_run.
  rewrite (getChunk_miss driver _ (ChunkIndex n) w data meta Hpool Hmiss Hrows Hlen Hid Hone).
  fold table. fold w1. rewrite L. unfold chunkJoint.
  destruct (idAt data a); try congruence; destruct (idAt data b); try congruence;
    destruct (nonEmpty (whereText p)); apply R.
Qed.

End ColdChunk.

Lemma select_chunk_cold_witness :
  added freshWorld
    (select (rowsDriver (idRows 1 25))
            (Some (withWhere (withChunk idsOfT (Some (ChunkIndex 1)))
                             (Some (WRecord [("kind", JStr "a")]))))
            freshWorld).2
  = [PoolQuery (baseQuery "SELECT id FROM t WHERE kind = ? ORDER BY id") JUndefined;
     PoolQuery
       (baseQuery "SELECT id FROM t WHERE kind = ? ORDER BY id AND id BETWEEN 21 AND 25")
       (JArr [JStr "a"])].
Proof.
  apply (select_chunk_cold (rowsDriver (idRows 1 25))
           (withWhere (withChunk idsOfT (Some (ChunkIndex 1)))
                      (Some (WRecord [("kind", JStr "a")])))
           freshWorld 1 20%nat 24%nat (idRows 1 25) None);
    [reflexivity | reflexivity | reflexivity | reflexivity | vm_compute; lia | discriminate
    | discriminate | lia | reflexivity | discriminate | discriminate | reflexivity
    | reflexivity].
Defined.
